(** * Viewport-driven UI state engine of the portfolio page (src/react_frontend/src/App.js)

    A shallow embedding of the three pieces of logic of [App.js]:
    the contact-form validator and session ([validateContact],
    [onContactChange], [onContactBlur], [onContactSubmit]), the scroll spy
    ([useScrollSpy]) and the reveal controller ([useRevealOnScroll]).

    JavaScript strings are sequences of UTF-16 code units and are modelled
    as [list N]; literals of the source are written [lit "..."]. Numbers
    delivered by the browser (ratios, offsets, scroll positions) are finite
    doubles and are modelled by the rationals [Q] they denote. Comparisons
    of doubles are exact; the one sum whose value is compared,
    [window.scrollY + headerOffset], is rounded to the nearest double as the
    addition of the language rounds it ([double_add]). *)

From Stdlib Require Import ZArith NArith QArith Qabs Lia Lqa List String Ascii.
From Stdlib Require Import Sorted Permutation Qround Qpower.
From stdpp Require Import base gmap list strings.

Close Scope Q_scope.
#[local] Set Warnings "-clear-no-such-hyp,-level-tolerance".
Open Scope string_scope.
Open Scope list_scope.

(** ** JavaScript strings *)

Abbreviation jsstring := (list N).

(** A string literal of the source, as code units. *)
Definition lit (s : string) : jsstring :=
  map N_of_ascii (list_ascii_of_string s).

(** [Boolean(s)] for a string: only the empty string is falsy. *)
Definition truthy (s : jsstring) : bool :=
  match s with [] => false | _ :: _ => true end.

(** [a || b] on strings. *)
Definition js_or (a b : jsstring) : jsstring :=
  if truthy a then a else b.

(** The code units that ECMAScript calls WhiteSpace or LineTerminator: the
    set stripped by [String.prototype.trim] and matched by [\s]. *)
Definition isWhiteSpace (c : N) : bool :=
  ((9 <=? c) && (c <=? 13) || (c =? 32) || (c =? 160) || (c =? 5760)
   || (8192 <=? c) && (c <=? 8202) || (c =? 8232) || (c =? 8233)
   || (c =? 8239) || (c =? 8287) || (c =? 12288) || (c =? 65279))%N.

Fixpoint trimStart (s : jsstring) : jsstring :=
  match s with
  | [] => []
  | c :: s' => if isWhiteSpace c then trimStart s' else s
  end.

Definition trimEnd (s : jsstring) : jsstring :=
  rev (trimStart (rev s)).

(** [String.prototype.trim] *)
Definition trim (s : jsstring) : jsstring :=
  trimEnd (trimStart s).

(** ** Regular expressions

    The fragment of the regular-expression syntax that the source uses,
    with the usual closure so that derivatives stay inside the syntax. A
    pattern written [/^...$/] (no flags) and used through [.test] accepts a
    string exactly when the whole string matches the body. *)

Inductive class_atom : Type :=
| ClassSpace            (* \s *)
| ClassChar (c : N).    (* a literal character inside [...] *)

Inductive regex : Type :=
| RFail
| REps
| RChar (c : N)
| RNotIn (atoms : list class_atom)   (* [^...] *)
| RSeq (r1 r2 : regex)
| RAlt (r1 r2 : regex)
| RStar (r : regex).

(** [r+] *)
Definition RPlus (r : regex) : regex := RSeq r (RStar r).

Definition atom_has (a : class_atom) (c : N) : bool :=
  match a with
  | ClassSpace => isWhiteSpace c
  | ClassChar d => (c =? d)%N
  end.

Definition class_excludes (atoms : list class_atom) (c : N) : bool :=
  negb (existsb (fun a => atom_has a c) atoms).

Fixpoint nullable (r : regex) : bool :=
  match r with
  | RFail => false
  | REps => true
  | RChar _ => false
  | RNotIn _ => false
  | RSeq r1 r2 => nullable r1 && nullable r2
  | RAlt r1 r2 => nullable r1 || nullable r2
  | RStar _ => true
  end.

Fixpoint deriv (c : N) (r : regex) : regex :=
  match r with
  | RFail => RFail
  | REps => RFail
  | RChar d => if (c =? d)%N then REps else RFail
  | RNotIn atoms => if class_excludes atoms c then REps else RFail
  | RSeq r1 r2 =>
      if nullable r1
      then RAlt (RSeq (deriv c r1) r2) (deriv c r2)
      else RSeq (deriv c r1) r2
  | RAlt r1 r2 => RAlt (deriv c r1) (deriv c r2)
  | RStar r1 => RSeq (deriv c r1) (RStar r1)
  end.

(** [/^r$/.test(s)] *)
Fixpoint regex_test (r : regex) (s : jsstring) : bool :=
  match s with
  | [] => nullable r
  | c :: s' => regex_test (deriv c r) s'
  end.

(** The language of a regular expression, as a relation. *)
Inductive Matches : regex -> jsstring -> Prop :=
| MEps : Matches REps []
| MChar c : Matches (RChar c) [c]
| MNotIn atoms c : class_excludes atoms c = true -> Matches (RNotIn atoms) [c]
| MSeq r1 r2 s1 s2 : Matches r1 s1 -> Matches r2 s2 -> Matches (RSeq r1 r2) (s1 ++ s2)
| MAltL r1 r2 s : Matches r1 s -> Matches (RAlt r1 r2) s
| MAltR r1 r2 s : Matches r2 s -> Matches (RAlt r1 r2) s
| MStarNil r : Matches (RStar r) []
| MStarApp r s1 s2 : Matches r s1 -> Matches (RStar r) s2 -> Matches (RStar r) (s1 ++ s2).

(** ** Contact form validation *)

(** The three inputs of the form. Values and touched flags are objects with
    the same three keys, [name], [email] and [message]. *)
Inductive field : Type := FName | FEmail | FMessage.

#[global] Instance field_eq_dec : EqDecision field.
Proof. solve_decision. Defined.

Record fields (A : Type) : Type := mkFields {
  name : A;
  email : A;
  message : A
}.
Arguments mkFields {A} _ _ _.
Arguments name {A} _.
Arguments email {A} _.
Arguments message {A} _.

Abbreviation ContactFormValues := (fields jsstring).
Abbreviation ContactFormTouched := (fields bool).

(** [[^\s@]] *)
Definition notSpaceAt : regex := RNotIn [ClassSpace; ClassChar 64%N].

(** [/^[^\s@]+@[^\s@]+\.[^\s@]+$/] *)
Definition email_regex : regex :=
  RSeq (RPlus notSpaceAt)
    (RSeq (RChar 64%N)
       (RSeq (RPlus notSpaceAt)
          (RSeq (RChar 46%N) (RPlus notSpaceAt)))).

Definition msg_name : jsstring := lit "Please enter your name.".
Definition msg_email_empty : jsstring := lit "Please enter your email.".
Definition msg_email_invalid : jsstring := lit "Please enter a valid email address.".
Definition msg_message_empty : jsstring := lit "Please write a message.".
Definition msg_message_short : jsstring := lit "Please write at least 20 characters.".

(** [validateContact(values)]: the errors object, keyed by field name. *)
Definition validateContact (values : ContactFormValues) : gmap string jsstring :=
  let errors : gmap string jsstring := ∅ in
  let name := trim (name values) in
  let email := trim (email values) in
  let message := trim (message values) in
  let errors :=
    if negb (truthy name) then <["name" := msg_name]> errors else errors in
  let errors :=
    if negb (truthy email) then <["email" := msg_email_empty]> errors
    else if negb (regex_test email_regex email)
         then <["email" := msg_email_invalid]> errors
         else errors in
  let errors :=
    if negb (truthy message) then <["message" := msg_message_empty]> errors
    else if (length message <? 20)%nat
         then <["message" := msg_message_short]> errors
         else errors in
  errors.

(** [Object.keys(contactErrors).length === 0] *)
Definition isContactValid (values : ContactFormValues) : bool :=
  (size (validateContact values) =? 0)%nat.

(** The strings accepted by [email_regex], described directly: a local
    part, "@", a domain, ".", a last part, each non-empty and free of
    white space and of "@". *)
Definition notSpaceNorAt (c : N) : bool :=
  negb (isWhiteSpace c) && negb (c =? 64)%N.

Definition email_shape (s : jsstring) : Prop :=
  exists l d t : jsstring,
    s = l ++ 64%N :: d ++ 46%N :: t /\
    l <> [] /\ d <> [] /\ t <> [] /\
    Forall (fun c => notSpaceNorAt c = true) l /\
    Forall (fun c => notSpaceNorAt c = true) d /\
    Forall (fun c => notSpaceNorAt c = true) t.

(** The pattern as the specification words it: the part after the dot is
    "one or more non-space characters", which would be [[^\s]+]. *)
Definition spec_email_regex : regex :=
  RSeq (RPlus notSpaceAt)
    (RSeq (RChar 64%N)
       (RSeq (RPlus notSpaceAt)
          (RSeq (RChar 46%N) (RPlus (RNotIn [ClassSpace]))))).

(** The email rule with the specification's pattern in place of the one of
    the source. *)
Definition email_rule_as_specified (values : ContactFormValues) : Prop :=
  (validateContact values !! "email" = Some msg_email_empty
   <-> trim (email values) = []) /\
  (validateContact values !! "email" = Some msg_email_invalid
   <-> trim (email values) <> [] /\
       regex_test spec_email_regex (trim (email values)) = false).

(** An address with a second "@" after the dot. *)
Definition secondAtValues : ContactFormValues :=
  mkFields (lit "Ann") (lit "a@b.c@d") (lit "A message of twenty chars.").

(** Per-field verdicts, read off the rules of [validateContact]. *)
Definition name_fails (values : ContactFormValues) : Prop :=
  trim (name values) = [].
Definition email_fails (values : ContactFormValues) : Prop :=
  ~ email_shape (trim (email values)).
Definition message_fails (values : ContactFormValues) : Prop :=
  (length (trim (message values)) < 20)%nat.


(** ** Contact form session

    The component keeps three pieces of state. A handler runs against the
    state of the render it was created in and queues updates; React applies
    the queue, in order, before the next render. *)

Record session : Type := mkSession {
  contactValues : ContactFormValues;
  contactTouched : ContactFormTouched;
  contactSubmitted : bool
}.

Inductive update : Type :=
| SetContactValues (f : ContactFormValues -> ContactFormValues)
| SetContactTouched (f : ContactFormTouched -> ContactFormTouched)
| SetContactSubmitted (b : bool).

Definition apply_update (s : session) (u : update) : session :=
  match u with
  | SetContactValues f =>
      mkSession (f (contactValues s)) (contactTouched s) (contactSubmitted s)
  | SetContactTouched f =>
      mkSession (contactValues s) (f (contactTouched s)) (contactSubmitted s)
  | SetContactSubmitted b =>
      mkSession (contactValues s) (contactTouched s) b
  end.

Definition flush (s : session) (queue : list update) : session :=
  fold_left apply_update queue s.

(** [{ ...prev, [name]: value }] for the name of one of the three inputs. *)
Definition set_field {A : Type} (k : field) (v : A) (prev : fields A) : fields A :=
  match k with
  | FName => mkFields v (email prev) (message prev)
  | FEmail => mkFields (name prev) v (message prev)
  | FMessage => mkFields (name prev) (email prev) v
  end.

Definition get_field {A : Type} (k : field) (o : fields A) : A :=
  match k with
  | FName => name o
  | FEmail => email o
  | FMessage => message o
  end.

Definition emptyValues : ContactFormValues := mkFields [] [] [].
Definition allTouched : ContactFormTouched := mkFields true true true.
Definition noneTouched : ContactFormTouched := mkFields false false false.

Definition initialSession : session := mkSession emptyValues noneTouched false.

(** [onContactChange(e)], with [e.target] the input [k] holding [value]. *)
Definition onContactChange (k : field) (value : jsstring) : list update :=
  [SetContactSubmitted false; SetContactValues (set_field k value)].

(** [onContactBlur(e)] *)
Definition onContactBlur (k : field) : list update :=
  [SetContactTouched (set_field k true)].

(** [onContactSubmit(e)]; [isContactValid] is the one of the current render. *)
Definition onContactSubmit (s : session) : list update :=
  SetContactTouched (fun _ => allTouched)
  :: (if isContactValid (contactValues s)
      then [SetContactSubmitted true;
            SetContactValues (fun _ => emptyValues);
            SetContactTouched (fun _ => noneTouched)]
      else []).

(** The click handler of the Reset button. *)
Definition onContactReset : list update :=
  [SetContactSubmitted false;
   SetContactValues (fun _ => emptyValues);
   SetContactTouched (fun _ => noneTouched)].

Inductive form_event : Type :=
| Change (k : field) (value : jsstring)
| Blur (k : field)
| Submit
| Reset.

Definition form_step (s : session) (ev : form_event) : session :=
  flush s
    match ev with
    | Change k value => onContactChange k value
    | Blur k => onContactBlur k
    | Submit => onContactSubmit s
    | Reset => onContactReset
    end.

(** The error shown under input [k]: [contactTouched[k] && contactErrors[k]]. *)
Definition field_key (k : field) : string :=
  match k with FName => "name" | FEmail => "email" | FMessage => "message" end.

Definition shownError (s : session) (k : field) : option jsstring :=
  if get_field k (contactTouched s)
  then validateContact (contactValues s) !! field_key k
  else None.

(** ** The browser side

    A document is seen through [getElementById] and [offsetTop]: a finite
    map from element ids to the top offset of the element. An element never
    has the empty string as its id. *)

Abbreviation document := (gmap jsstring Z).

Definition getElementById (doc : document) (id : jsstring) : option Z :=
  if truthy id then doc !! id else None.

(** One [IntersectionObserverEntry]; [target] identifies the observed
    element (by its id for the scroll spy, by a handle for the reveal
    controller) and [boundingTop] is [boundingClientRect.top]. *)
Record IntersectionObserverEntry (T : Type) : Type := mkEntry {
  target : T;
  isIntersecting : bool;
  intersectionRatio : Q;
  boundingTop : Q
}.
Arguments mkEntry {T} _ _ _ _.
Arguments target {T} _.
Arguments isIntersecting {T} _.
Arguments intersectionRatio {T} _.
Arguments boundingTop {T} _.

(** [Array.prototype.sort(cmp)]: a stable sort; [cmp a b <= 0] keeps [a]
    before [b]. *)
Fixpoint sort_insert {A : Type} (cmp : A -> A -> Q) (x : A) (l : list A) : list A :=
  match l with
  | [] => [x]
  | y :: l' => if Qle_bool (cmp x y) 0 then x :: l else y :: sort_insert cmp x l'
  end.

Definition array_sort {A : Type} (cmp : A -> A -> Q) (l : list A) : list A :=
  fold_right (sort_insert cmp) [] l.

(** ** Scroll spy ([useScrollSpy]) *)

Record visible_section : Type := mkVisible {
  id : jsstring;
  ratio : Q;
  top : Q
}.

Definition toVisible (e : IntersectionObserverEntry jsstring) : visible_section :=
  mkVisible (target e) (intersectionRatio e) (boundingTop e).

(** The comparator passed to [sort]. *)
Definition compareVisible (a b : visible_section) : Q :=
  if negb (Qeq_bool (ratio b) (ratio a))
  then (ratio b - ratio a)%Q
  else (Qabs (top a) - Qabs (top b))%Q.

(** [entries.filter(...).map(...).sort(...)] *)
Definition visibleSections (entries : list (IntersectionObserverEntry jsstring))
  : list visible_section :=
  array_sort compareVisible (map toVisible (List.filter isIntersecting entries)).

(** The observer callback: the argument of the [setActiveId] call it makes,
    if it makes one. [latest] is [latestActive.current]. *)
Definition observerCallback (latest : jsstring)
    (entries : list (IntersectionObserverEntry jsstring)) : option jsstring :=
  match visibleSections entries with
  | v :: _ => if bool_decide (id v <> latest) then Some (id v) else None
  | [] => None
  end.

Definition headerOffset : Q := 96.

(** *** Addition of doubles

    [a + b] on Numbers is the exact sum rounded to the nearest binary64
    value, ties to the even significand. A double is [m * 2^e] with
    [|m| < 2^53] and [e >= -1074]. (A sum of magnitude [2^1024] or more would
    be an infinity; the sum of a finite double and 96 never is.) *)

Definition pow2 (e : Z) : Q := (2 ^ e)%Q.

(** The integer [k] with [2^k <= x < 2^(k+1)], for positive [x]. *)
Definition Qlog2 (x : Q) : Z :=
  let k := (Z.log2 (Qnum x) - Z.log2 (Zpos (Qden x)))%Z in
  if Qle_bool (pow2 k) x then k else (k - 1)%Z.

(** The nearest integer, the even one of the two when half way. *)
Definition round_half_even (q : Q) : Z :=
  let f := Qfloor q in
  match Qcompare (q - inject_Z f) (1 # 2) with
  | Lt => f
  | Gt => (f + 1)%Z
  | Eq => if Z.even f then f else (f + 1)%Z
  end.

(** Rounding of a positive number: 53 significant bits, or the spacing
    [2^-1074] of the subnormal range. *)
Definition round64_pos (x : Q) : Q :=
  let e := Z.max (-1074) (Qlog2 x - 52) in
  (inject_Z (round_half_even (x / pow2 e)) * pow2 e)%Q.

Definition round64 (x : Q) : Q :=
  match Qcompare x 0 with
  | Eq => 0%Q
  | Gt => round64_pos x
  | Lt => (- round64_pos (- x))%Q
  end.

(** [x + y] on doubles. *)
Definition double_add (x y : Q) : Q := round64 (x + y).

(** The loop of [onScroll]: [current] after walking [ids]. The loop only
    runs with a non-empty [ids]. *)
Definition scrollCurrent (ids : list jsstring) (doc : document) (scrollY : Q) : jsstring :=
  let scrollPos := double_add scrollY headerOffset in
  fold_left
    (fun current id =>
       match getElementById doc id with
       | None => current
       | Some offsetTop =>
           if Qle_bool (inject_Z offsetTop) scrollPos then id else current
       end)
    ids (hd [] ids).

(** [onScroll]: the argument of its [setActiveId] call, if it makes one. *)
Definition onScroll (ids : list jsstring) (latest : jsstring)
    (doc : document) (scrollY : Q) : option jsstring :=
  let current := scrollCurrent ids doc scrollY in
  if bool_decide (current <> latest) then Some current else None.

(** What the second effect of the hook has installed. *)
Inductive subscription : Type :=
| NoSubscription
| Observer (targets : list jsstring)   (* ids of the observed elements *)
| ScrollListener.

Record spy : Type := mkSpy {
  activeId : jsstring;          (* the state, with queued updates applied *)
  latestActive : jsstring;      (* latestActive.current *)
  installed : subscription
}.

Record spy_config : Type := mkConfig {
  sectionIds : list jsstring;
  hasIntersectionObserver : bool     (* "IntersectionObserver" in window *)
}.

(** [(sectionIds || []).filter(Boolean)] *)
Definition knownIds (cfg : spy_config) : list jsstring :=
  List.filter truthy (sectionIds cfg).

(** [useState(sectionIds[0] || "home")] and [useRef(activeId)]. *)
Definition initialActive (sectionIds : list jsstring) : jsstring :=
  match sectionIds with
  | [] => lit "home"
  | first :: _ => js_or first (lit "home")
  end.

Definition spy_init (cfg : spy_config) : spy :=
  let a := initialActive (sectionIds cfg) in
  mkSpy a a NoSubscription.

(** [setActiveId(v)], when the handler calls it. *)
Definition setActiveId (call : option jsstring) (s : spy) : spy :=
  match call with
  | Some v => mkSpy v (latestActive s) (installed s)
  | None => s
  end.

(** The body of the second effect, run against the document and scroll
    position of that moment. *)
Definition spyEffect (cfg : spy_config) (doc : document) (scrollY : Q) (s : spy) : spy :=
  let ids := knownIds cfg in
  match ids with
  | [] => mkSpy (activeId s) (latestActive s) NoSubscription
  | _ :: _ =>
      if hasIntersectionObserver cfg
      then mkSpy (activeId s) (latestActive s)
             (Observer (List.filter (fun id => bool_decide (is_Some (getElementById doc id))) ids))
      else setActiveId (onScroll ids (latestActive s) doc scrollY)
             (mkSpy (activeId s) (latestActive s) ScrollListener)
  end.

Inductive spy_event : Type :=
| Mount (doc : document) (scrollY : Q)
    (* the second effect runs (after the cleanup of its previous run) *)
| Intersection (entries : list (IntersectionObserverEntry jsstring))
    (* the browser delivers entries to the observer *)
| Scroll (doc : document) (scrollY : Q)
    (* the window fires "scroll" *)
| Commit.
    (* a render commits and the first effect stores activeId in the ref *)

Definition spy_step (cfg : spy_config) (s : spy) (ev : spy_event) : spy :=
  match ev with
  | Mount doc scrollY => spyEffect cfg doc scrollY s
  | Intersection entries =>
      match installed s with
      | Observer _ => setActiveId (observerCallback (latestActive s) entries) s
      | _ => s
      end
  | Scroll doc scrollY =>
      match installed s with
      | ScrollListener => setActiveId (onScroll (knownIds cfg) (latestActive s) doc scrollY) s
      | _ => s
      end
  | Commit => mkSpy (activeId s) (activeId s) (installed s)
  end.

Definition spy_run (cfg : spy_config) (s : spy) (evs : list spy_event) : spy :=
  fold_left (spy_step cfg) evs s.

(** The browser only reports on elements that the observer observes. *)
Definition event_ok (s : spy) (ev : spy_event) : Prop :=
  match ev, installed s with
  | Intersection entries, Observer targets =>
      Forall (fun e => In (target e) targets) entries
  | _, _ => True
  end.

Inductive reachable (cfg : spy_config) : spy -> Prop :=
| reach_init : reachable cfg (spy_init cfg)
| reach_step s ev :
    reachable cfg s -> event_ok s ev -> reachable cfg (spy_step cfg s ev).

(** The id that an event selects, if its handler runs and selects one. The
    effect calls [onScroll] itself when it installs the scroll listener. *)
Definition selected (cfg : spy_config) (s : spy) (ev : spy_event) : option jsstring :=
  match ev with
  | Intersection entries =>
      match installed s with
      | Observer _ => id <$> head (visibleSections entries)
      | _ => None
      end
  | Scroll doc scrollY =>
      match installed s with
      | ScrollListener => Some (scrollCurrent (knownIds cfg) doc scrollY)
      | _ => None
      end
  | Mount doc scrollY =>
      match knownIds cfg with
      | [] => None
      | _ :: _ =>
          if hasIntersectionObserver cfg then None
          else Some (scrollCurrent (knownIds cfg) doc scrollY)
      end
  | Commit => None
  end.

(** Whether the handler of an event calls [setActiveId]. *)
Definition emits (cfg : spy_config) (s : spy) (ev : spy_event) : bool :=
  match ev with
  | Intersection entries =>
      match installed s with
      | Observer _ => bool_decide (is_Some (observerCallback (latestActive s) entries))
      | _ => false
      end
  | Scroll doc scrollY =>
      match installed s with
      | ScrollListener =>
          bool_decide (is_Some (onScroll (knownIds cfg) (latestActive s) doc scrollY))
      | _ => false
      end
  | Mount doc scrollY =>
      match knownIds cfg with
      | [] => false
      | _ :: _ =>
          if hasIntersectionObserver cfg then false
          else bool_decide (is_Some (onScroll (knownIds cfg) (latestActive s) doc scrollY))
      end
  | Commit => false
  end.

(** [a] is ranked at least as high as [b]: a larger ratio, or the same ratio
    and a top edge at least as close to the top of the viewport. *)
Definition outranks (a b : visible_section) : Prop :=
  (ratio b < ratio a)%Q \/
  ((ratio b == ratio a)%Q /\ (Qabs (top a) <= Qabs (top b))%Q).

(** A section qualifies in the fallback when its element exists and its top
    offset is at most the scroll position plus the header offset, as the
    code computes that sum. *)
Definition qualifies (doc : document) (scrollY : Q) (id : jsstring) : bool :=
  match getElementById doc id with
  | None => false
  | Some offsetTop => Qle_bool (inject_Z offsetTop) (double_add scrollY headerOffset)
  end.

(** What every reachable state satisfies when the first id is not empty:
    the active id is known, observed elements are sections, and the scroll
    listener is only installed when there is a section to select. *)
Definition spy_inv (cfg : spy_config) (s : spy) : Prop :=
  In (activeId s) (sectionIds cfg) /\
  match installed s with
  | NoSubscription => True
  | Observer targets => forall t, In t targets -> In t (sectionIds cfg)
  | ScrollListener => knownIds cfg <> []
  end.

(** The invariant as the specification words it, for any non-empty list. *)
Definition activeId_rule_as_specified (cfg : spy_config) : Prop :=
  sectionIds cfg <> [] ->
  head (sectionIds cfg) = Some (activeId (spy_init cfg)) /\
  forall s, reachable cfg s -> In (activeId s) (sectionIds cfg).

(** The fallback selection as the specification words it: the last
    qualifying section of the list, and the first section id of the list
    when none qualifies. *)
Definition fallback_as_specified (sectionIds : list jsstring)
    (doc : document) (scrollY : Q) : jsstring :=
  List.last (List.filter (qualifies doc scrollY) sectionIds) (hd [] sectionIds).

(** A list whose first id is the empty string, and a page in which the
    only section sits far below the fold. *)
Definition blankFirstConfig : spy_config :=
  mkConfig [lit ""; lit "about"] false.

Definition blankFirstDoc : document := {[ lit "about" := 1000%Z ]}.

(** The fallback rule as the specification words it, for a state in which
    the scroll listener is installed and the ref is up to date. *)
Definition fallback_rule_as_specified (cfg : spy_config) (s : spy)
    (doc : document) (scrollY : Q) : Prop :=
  installed s = ScrollListener -> latestActive s = activeId s ->
  activeId (spy_step cfg s (Scroll doc scrollY))
  = fallback_as_specified (sectionIds cfg) doc scrollY.

(** The blank-first list after mount and commit, on the fallback path. *)
Definition blankFirstListening : spy :=
  spy_run blankFirstConfig (spy_init blankFirstConfig)
    [Mount blankFirstDoc 0; Commit].

(** The section list of the page and a document that has all four
    sections. *)
Definition pageIds : list jsstring :=
  [lit "home"; lit "about"; lit "work"; lit "contact"].

Definition pageDoc : document :=
  {[ lit "home" := 0%Z; lit "about" := 800%Z;
     lit "work" := 1600%Z; lit "contact" := 2400%Z ]}.

Definition observerConfig : spy_config := mkConfig pageIds true.
Definition fallbackConfig : spy_config := mkConfig pageIds false.

(** The page on the fallback path, mounted at the top and committed. *)
Definition fallbackListening : spy :=
  spy_run fallbackConfig (spy_init fallbackConfig) [Mount pageDoc 0; Commit].

(** The same rule read for every scroll event, whatever the ref holds. *)
Definition fallback_rule_on_every_event (cfg : spy_config) (s : spy)
    (doc : document) (scrollY : Q) : Prop :=
  installed s = ScrollListener ->
  activeId (spy_step cfg s (Scroll doc scrollY))
  = fallback_as_specified (sectionIds cfg) doc scrollY.

(** The page on the fallback path, mounted part of the way down, before the
    render that would store the section selected at mount in the ref. *)
Definition staleListening : spy :=
  spy_run fallbackConfig (spy_init fallbackConfig) [Mount pageDoc (900 # 1)].

(** A section one unit below the header offset, and a scroll position just
    under 1 whose sum with 96 rounds to 97. *)
Definition boundaryDoc : document :=
  {[ lit "home" := 0%Z; lit "about" := 97%Z ]}.

Definition justUnderOne : Q := 1 - (1 # 9007199254740992).

(** Two sections with the same ratio; "work" is nearer to the top. *)
Definition tiedEntries : list (IntersectionObserverEntry jsstring) :=
  [ mkEntry (lit "about") true (1 # 2) (-(300 # 1));
    mkEntry (lit "work") true (1 # 2) (120 # 1);
    mkEntry (lit "contact") false 0 (900 # 1) ].

(** ** Reveal controller ([useRevealOnScroll])

    Elements are opaque handles. The state is the set of elements that carry
    the class [is-revealed] and the observer of the current effect run, if
    there is one, with the elements it observes. *)

Abbreviation element := nat.

Record reveal : Type := mkReveal {
  revealed : gset element;
  observer : option (gset element)
}.

(** [el.classList.add("is-revealed")] for each element. *)
Definition revealAll (elements : list element) (s : reveal) : reveal :=
  mkReveal (revealed s ∪ list_to_set elements) (observer s).

(** The body of the effect; [elements] is the result of
    [querySelectorAll("[data-reveal]")] at that moment. The cleanup of the
    previous run has disconnected its observer. *)
Definition revealEffect (reducedMotion hasIO : bool) (elements : list element)
    (s : reveal) : reveal :=
  let s := mkReveal (revealed s) None in
  match elements with
  | [] => s
  | _ :: _ =>
      if reducedMotion then revealAll elements s
      else if negb hasIO then revealAll elements s
      else mkReveal (revealed s) (Some (list_to_set elements))
  end.

(** The body of [entries.forEach] in the observer callback. *)
Definition revealEntry (s : reveal) (entry : IntersectionObserverEntry element) : reveal :=
  if isIntersecting entry
  then mkReveal (revealed s ∪ {[target entry]})
         ((fun obs => obs ∖ {[target entry]}) <$> observer s)
  else s.

Inductive reveal_event : Type :=
| Run (reducedMotion hasIO : bool) (elements : list element)
| Intersect (entries : list (IntersectionObserverEntry element)).

Definition reveal_step (s : reveal) (ev : reveal_event) : reveal :=
  match ev with
  | Run reducedMotion hasIO elements => revealEffect reducedMotion hasIO elements s
  | Intersect entries =>
      match observer s with
      | Some _ => fold_left revealEntry entries s
      | None => s
      end
  end.

(** The states visited from [s], one per event. *)
Fixpoint reveal_trace (s : reveal) (evs : list reveal_event) : list reveal :=
  match evs with
  | [] => [s]
  | ev :: evs' => s :: reveal_trace (reveal_step s ev) evs'
  end.

Definition reveal_run (s : reveal) (evs : list reveal_event) : reveal :=
  fold_left reveal_step evs s.

(** How many times [x] goes from hidden to revealed along a list of states. *)
Fixpoint transitions (x : element) (states : list reveal) : nat :=
  match states with
  | s1 :: ((s2 :: _) as rest) =>
      (if bool_decide ((x ∉ revealed s1) ∧ (x ∈ revealed s2)) then 1 else 0)
      + transitions x rest
  | _ => 0
  end.

(** How many times [x] goes from revealed to hidden. *)
Fixpoint reversals (x : element) (states : list reveal) : nat :=
  match states with
  | s1 :: ((s2 :: _) as rest) =>
      (if bool_decide ((x ∈ revealed s1) ∧ (x ∉ revealed s2)) then 1 else 0)
      + reversals x rest
  | _ => 0
  end.

Definition reveal_init : reveal := mkReveal ∅ None.

(** Two reveal-marked elements under observation, motion allowed. *)
Definition revealObserving : reveal :=
  reveal_step reveal_init (Run false true [1; 2]).

Definition firstSeen : list (IntersectionObserverEntry element) :=
  [mkEntry 1 true (1 # 5) (400 # 1); mkEntry 2 false 0 (900 # 1)].


(** ** Reduced-motion preference ([usePrefersReducedMotion])

    [window.matchMedia], when the browser has it, returns an object whose
    [matches] property follows the preference and which dispatches "change"
    to its listeners. [addListener]/[removeListener] are the older names of
    the same listener list. *)

Record MediaQueryList : Type := mkMedia {
  matches : bool;
  hasAddEventListener : bool;       (* mediaQuery.addEventListener *)
  hasRemoveEventListener : bool     (* mediaQuery.removeEventListener *)
}.

Inductive listener_api : Type := EventListenerApi | LegacyListenerApi.

Record motion : Type := mkMotion {
  reduced : bool;                      (* the state of the hook *)
  listening : option listener_api      (* how [onChange] was subscribed *)
}.

(** [useState(false)] *)
Definition motion_init : motion := mkMotion false None.

(** The effect of the hook; [None] stands for a missing [window.matchMedia]. *)
Definition motionEffect (mq : option MediaQueryList) (s : motion) : motion :=
  match mq with
  | None => s
  | Some q =>
      mkMotion (matches q)
        (Some (if hasAddEventListener q then EventListenerApi else LegacyListenerApi))
  end.

(** The cleanup of the effect: which method removes the listener. *)
Definition motionCleanupApi (q : MediaQueryList) : listener_api :=
  if hasRemoveEventListener q then EventListenerApi else LegacyListenerApi.

Inductive motion_event : Type :=
| MotionMount (mq : option MediaQueryList)
| MediaChange (nowMatches : bool)     (* "change" fires; [matches] is now this *)
| MotionUnmount.

Definition motion_step (s : motion) (ev : motion_event) : motion :=
  match ev with
  | MotionMount mq => motionEffect mq s
  | MediaChange nowMatches =>
      match listening s with
      | Some _ => mkMotion nowMatches (listening s)
      | None => s
      end
  | MotionUnmount => mkMotion (reduced s) None
  end.

Definition motion_run (s : motion) (evs : list motion_event) : motion :=
  fold_left motion_step evs s.

(** The media query object after its preference took the values [changes]
    in turn. *)
Definition media_after (q : MediaQueryList) (changes : list bool) : MediaQueryList :=
  mkMedia (List.last changes (matches q))
    (hasAddEventListener q) (hasRemoveEventListener q).

(** ** Navigation ([scrollToSection], [onNavClick], [onSkipToContent]) *)

Inductive ScrollBehavior : Type := BehaviorAuto | BehaviorSmooth.

(** [scrollToSection(sectionId)]: the [scrollIntoView] call it makes, if it
    makes one, given the document and [window.matchMedia] of that moment. *)
Definition scrollToSection (doc : document) (mq : option MediaQueryList)
    (sectionId : jsstring) : option ScrollBehavior :=
  match getElementById doc sectionId with
  | None => None
  | Some _ =>
      let prefersReduced :=
        match mq with
        | None => false
        | Some q => matches q
        end in
      Some (if prefersReduced then BehaviorAuto else BehaviorSmooth)
  end.

(** ** Mobile menu and the body scroll lock

    [mobileOpen] is the state; [bodyOverflow] is [document.body.style.overflow]
    and [lockCleanup] is the value the cleanup of the lock effect will put
    back, when that effect has returned a cleanup. *)

Record menu : Type := mkMenu {
  mobileOpen : bool;
  bodyOverflow : jsstring;
  lockCleanup : option jsstring
}.

Inductive menu_event : Type :=
| ToggleClick                    (* setMobileOpen((v) => !v) *)
| CloseClick                     (* setMobileOpen(false): close button, backdrop *)
| NavClick (sectionId : jsstring)   (* onNavClick *)
| ResizeTo (innerWidth : Z).     (* onResize *)

(** The value of [mobileOpen] after the handler of the event. *)
Definition menu_handler (s : menu) (ev : menu_event) : bool :=
  match ev with
  | ToggleClick => negb (mobileOpen s)
  | CloseClick => false
  | NavClick _ => false
  | ResizeTo innerWidth => if (860 <=? innerWidth)%Z then false else mobileOpen s
  end.

(** The lock effect, depending on [mobileOpen], when a render commits a new
    value [open]: first the cleanup of its previous run, then its body. *)
Definition lockEffect (open : bool) (s : menu) : menu :=
  let overflow :=
    match lockCleanup s with
    | Some prev => prev
    | None => bodyOverflow s
    end in
  if open
  then mkMenu true (lit "hidden") (Some overflow)
  else mkMenu false overflow None.

Definition menu_step (s : menu) (ev : menu_event) : menu :=
  let open := menu_handler s ev in
  if Bool.eqb open (mobileOpen s) then s else lockEffect open s.

Definition menu_run (s : menu) (evs : list menu_event) : menu :=
  fold_left menu_step evs s.

(** The menu as first rendered, over a page whose body overflow is [o]. *)
Definition menu_init (o : jsstring) : menu := mkMenu false o None.

(** [onNavClick(id)]: the new [mobileOpen] and the scroll it asks for. *)
Definition onNavClick (doc : document) (mq : option MediaQueryList)
    (sectionId : jsstring) : bool * option ScrollBehavior :=
  (false, scrollToSection doc mq sectionId).

(** [onSkipToContent(e)]: whether the default action was prevented, the
    result of [onNavClick("home")], and whether [main] received focus. *)
Definition onSkipToContent (doc : document) (mq : option MediaQueryList)
  : bool * (bool * option ScrollBehavior) * bool :=
  (true, onNavClick doc mq (lit "home"),
   bool_decide (is_Some (getElementById doc (lit "main")))).

(** ** What the markup derives from the state *)

(** [SECTIONS] *)
Definition SECTIONS : list (jsstring * jsstring) :=
  [ (lit "home", lit "Home"); (lit "about", lit "About");
    (lit "work", lit "Work"); (lit "contact", lit "Contact") ].

(** [SECTIONS.map((s) => s.id)] *)
Definition sectionIdsOfPage : list jsstring := map fst SECTIONS.

(** The sections whose link carries [is-active] and [aria-current]. *)
Definition activeLinks (activeSection : jsstring) : list (jsstring * jsstring) :=
  List.filter (fun s => bool_decide (activeSection = fst s)) SECTIONS.

(** [disabled={!isContactValid}] on the submit button. *)
Definition submitDisabled (s : session) : bool :=
  negb (isContactValid (contactValues s)).

(** [aria-invalid] of input [k]. *)
Definition ariaInvalid (s : session) (k : field) : bool :=
  get_field k (contactTouched s)
  && bool_decide (is_Some (validateContact (contactValues s) !! field_key k)).

Definition form_run (s : session) (evs : list form_event) : session :=
  fold_left form_step evs s.

(** The message a field gets when it is empty. *)
Definition requiredMessage (k : field) : jsstring :=
  match k with
  | FName => msg_name
  | FEmail => msg_email_empty
  | FMessage => msg_message_empty
  end.

(** The observer path after a delivery that made "work" active and before
    the render that would store it in the ref. *)
Definition staleRef : spy :=
  spy_run observerConfig (spy_init observerConfig)
    [Mount pageDoc 0; Intersection tiedEntries].

(** Only "home" is reported, intersecting. *)
Definition homeEntry : list (IntersectionObserverEntry jsstring) :=
  [ mkEntry (lit "home") true (1 # 10) 0 ].

(** A visitor fills the form in and sends it. *)
Definition fillAndSend : list form_event :=
  [ Change FName (lit "Ann"); Change FEmail (lit "a@b.com");
    Change FMessage (lit "A message of twenty chars."); Submit ].

(** ** The preference wired to the reveal controller ([App])

    [App] passes the state of [usePrefersReducedMotion] to
    [useRevealOnScroll], whose effect depends on it: the effect runs again
    exactly when a render commits a different value. [elements] are the
    elements of the page marked [data-reveal]. *)

Record app : Type := mkApp {
  app_motion : motion;
  app_rendered : bool;      (* [reducedMotion] of the last committed render *)
  app_reveal : reveal
}.

Definition app_commit (hasIO : bool) (elements : list element) (s : app) : app :=
  if Bool.eqb (reduced (app_motion s)) (app_rendered s) then s
  else mkApp (app_motion s) (reduced (app_motion s))
         (revealEffect (reduced (app_motion s)) hasIO elements (app_reveal s)).

(** First render ([reduced = false]), its effects in hook order, and the
    render that follows if the motion effect changed the state. *)
Definition app_mount (mq : option MediaQueryList) (hasIO : bool)
    (elements : list element) : app :=
  app_commit hasIO elements
    (mkApp (motionEffect mq motion_init) false
       (revealEffect false hasIO elements reveal_init)).

Inductive app_event : Type :=
| AppMediaChange (nowMatches : bool)
| AppIntersect (entries : list (IntersectionObserverEntry element)).

Definition app_step (hasIO : bool) (elements : list element)
    (s : app) (ev : app_event) : app :=
  match ev with
  | AppMediaChange nowMatches =>
      app_commit hasIO elements
        (mkApp (motion_step (app_motion s) (MediaChange nowMatches))
           (app_rendered s) (app_reveal s))
  | AppIntersect entries =>
      mkApp (app_motion s) (app_rendered s)
        (reveal_step (app_reveal s) (Intersect entries))
  end.

Definition app_run (hasIO : bool) (elements : list element)
    (s : app) (evs : list app_event) : app :=
  fold_left (app_step hasIO elements) evs s.

(** * Properties *)

(** ** Strings and [trim] *)

Section Trim.

Lemma truthy_false (s : jsstring) : truthy s = false <-> s = [].
Proof. destruct s; simpl; split; congruence. Qed.

Lemma truthy_true (s : jsstring) : truthy s = true <-> s <> [].
Proof. destruct s; simpl; split; congruence. Qed.

Lemma trimStart_split (s : jsstring) :
  exists pre, s = pre ++ trimStart s /\ forallb isWhiteSpace pre = true.
Proof.
  induction s as [|c s [pre [Hs Hpre]]]; simpl.
  - exists []. auto.
  - destruct (isWhiteSpace c) eqn:Hc.
    + exists (c :: pre). simpl. rewrite Hc, Hpre. split; [congruence | reflexivity].
    + exists []. auto.
Qed.

Lemma trimStart_head (s : jsstring) (c : N) (rest : jsstring) :
  trimStart s = c :: rest -> isWhiteSpace c = false.
Proof.
  induction s as [|d s IH]; simpl; [discriminate|].
  destruct (isWhiteSpace d) eqn:Hd; [exact IH|].
  intros [= -> _]. exact Hd.
Qed.

Lemma trimStart_nil (s : jsstring) :
  trimStart s = [] <-> forallb isWhiteSpace s = true.
Proof.
  induction s as [|c s IH]; simpl; [tauto|].
  destruct (isWhiteSpace c); simpl; [exact IH|]. split; discriminate.
Qed.

Lemma trimStart_fixed (s : jsstring) :
  trimStart (trimStart s) = trimStart s.
Proof.
  induction s as [|c s IH]; simpl; [reflexivity|].
  destruct (isWhiteSpace c) eqn:Hc; [exact IH|]. simpl. now rewrite Hc.
Qed.

(** [trim] removes a run of white space at each end and nothing else, and
    what is left neither starts nor ends with white space. *)
Lemma trim_split (s : jsstring) :
  exists pre post,
    s = pre ++ trim s ++ post /\
    forallb isWhiteSpace pre = true /\ forallb isWhiteSpace post = true /\
    (forall c rest, trim s = c :: rest -> isWhiteSpace c = false) /\
    (forall c rest, trim s = rest ++ [c] -> isWhiteSpace c = false).
Proof.
  destruct (trimStart_split s) as [pre [Hs Hpre]].
  destruct (trimStart_split (rev (trimStart s))) as [tl [Hr Htl]].
  assert (Hmid : trimStart s = trim s ++ rev tl).
  { unfold trim, trimEnd. rewrite <- (rev_involutive (trimStart s)) at 1.
    rewrite Hr at 1. now rewrite rev_app_distr. }
  exists pre, (rev tl). repeat split.
  - rewrite <- Hmid. exact Hs.
  - exact Hpre.
  - rewrite forallb_forall in *. intros c Hc. apply Htl. now apply in_rev.
  - intros c rest Ht. rewrite Ht in Hmid. simpl in Hmid.
    eapply trimStart_head. exact Hmid.
  - intros c rest Ht. unfold trim, trimEnd in Ht.
    apply (f_equal (@rev N)) in Ht. rewrite rev_involutive, rev_app_distr in Ht.
    simpl in Ht. eapply trimStart_head. exact Ht.
Qed.

Lemma trim_nil (s : jsstring) :
  trim s = [] <-> forallb isWhiteSpace s = true.
Proof.
  unfold trim, trimEnd. split.
  - intros H. apply (f_equal (@rev N)) in H. rewrite rev_involutive in H.
    simpl in H. apply trimStart_nil in H.
    destruct (trimStart_split s) as [pre [Hs Hpre]].
    rewrite Hs, forallb_app, Hpre. simpl.
    rewrite forallb_forall in *. intros c Hc. apply H. now apply in_rev in Hc.
  - intros H. apply trimStart_nil in H. rewrite H. reflexivity.
Qed.

End Trim.

(** ** The matcher agrees with the language of the pattern *)

Section Regex.

Lemma nullable_Matches (r : regex) : nullable r = true <-> Matches r [].
Proof.
  split.
  - induction r; simpl; intros H; try discriminate.
    + constructor.
    + apply andb_true_iff in H as [H1 H2].
      change (@nil N) with (@nil N ++ []). constructor; auto.
    + apply orb_true_iff in H as [H|H]; [apply MAltL | apply MAltR]; auto.
    + constructor.
  - intros H. remember [] as s eqn:Hs.
    induction H; simpl; try discriminate; try reflexivity.
    + apply app_eq_nil in Hs as [-> ->]. rewrite IHMatches1, IHMatches2; auto.
    + rewrite IHMatches; auto.
    + rewrite IHMatches; auto using orb_true_r.
Qed.

Lemma Matches_deriv (r : regex) (s' : jsstring) :
  Matches r s' -> forall c s, s' = c :: s -> Matches (deriv c r) s.
Proof.
  induction 1 as [ | d | atoms d Hd | r1 r2 s1 s2 H1 IH1 H2 IH2
                 | r1 r2 s0 H0 IH0 | r1 r2 s0 H0 IH0
                 | r | r s1 s2 H1 IH1 H2 IH2 ];
    intros c s Hs; simpl.
  - discriminate.
  - injection Hs as <- <-. rewrite N.eqb_refl. constructor.
  - injection Hs as <- <-. rewrite Hd. constructor.
  - destruct s1 as [|c1 s1]; simpl in Hs.
    + apply nullable_Matches in H1. rewrite H1. apply MAltR. auto.
    + injection Hs as -> <-.
      assert (Matches (RSeq (deriv c r1) r2) (s1 ++ s2)) by (constructor; auto).
      destruct (nullable r1); [apply MAltL|]; assumption.
  - apply MAltL. auto.
  - apply MAltR. auto.
  - discriminate.
  - destruct s1 as [|c1 s1]; simpl in Hs.
    + apply (IH2 c s Hs).
    + injection Hs as -> <-. constructor; auto.
Qed.

Lemma deriv_Matches (r : regex) :
  forall c s, Matches (deriv c r) s -> Matches r (c :: s).
Proof.
  induction r as [ | | d | atoms | r1 IH1 r2 IH2 | r1 IH1 r2 IH2 | r IH ];
    intros c s H; simpl in H.
  - inversion H.
  - inversion H.
  - destruct (c =? d)%N eqn:E; inversion H; subst.
    apply N.eqb_eq in E as ->. constructor.
  - destruct (class_excludes atoms c) eqn:E; inversion H; subst.
    now constructor.
  - assert (Hseq : forall s, Matches (RSeq (deriv c r1) r2) s ->
                             Matches (RSeq r1 r2) (c :: s)).
    { intros s0 Hs0. inversion Hs0; subst.
      change (c :: s1 ++ s2) with ((c :: s1) ++ s2). constructor; auto. }
    destruct (nullable r1) eqn:E; [|auto].
    inversion H; subst; [auto|].
    change (c :: s) with ([] ++ c :: s). constructor; [|auto].
    now apply nullable_Matches.
  - inversion H; subst; [apply MAltL | apply MAltR]; auto.
  - inversion H; subst.
    change (c :: s1 ++ s2) with ((c :: s1) ++ s2). constructor; auto.
Qed.

Lemma regex_test_Matches (s : jsstring) :
  forall r, regex_test r s = true <-> Matches r s.
Proof.
  induction s as [|c s IH]; intros r; simpl.
  - apply nullable_Matches.
  - rewrite IH. split.
    + apply deriv_Matches.
    + intros H. eapply Matches_deriv; eauto.
Qed.

End Regex.

(** ** Contact form validation *)

Section Validation.

Lemma class_notSpaceAt (c : N) :
  class_excludes [ClassSpace; ClassChar 64%N] c = notSpaceNorAt c.
Proof.
  unfold class_excludes, notSpaceNorAt. simpl.
  rewrite orb_false_r. apply negb_orb.
Qed.

Lemma Matches_star_class (atoms : list class_atom) (s : jsstring) :
  Matches (RStar (RNotIn atoms)) s
  <-> Forall (fun c => class_excludes atoms c = true) s.
Proof.
  split.
  - intros H. remember (RStar (RNotIn atoms)) as r eqn:Hr.
    induction H; try discriminate.
    + constructor.
    + injection Hr as ->. inversion H; subst. simpl. constructor; auto.
  - induction 1 as [|c s Hc _ IH].
    + constructor.
    + change (c :: s) with ([c] ++ s). constructor; [now constructor | exact IH].
Qed.

Lemma Matches_plus_class (atoms : list class_atom) (s : jsstring) :
  Matches (RPlus (RNotIn atoms)) s
  <-> s <> [] /\ Forall (fun c => class_excludes atoms c = true) s.
Proof.
  unfold RPlus. split.
  - intros H. inversion H as [ | | | r1 r2 s1 s2 H1 H2 | | | | ]; subst.
    inversion H1; subst. apply Matches_star_class in H2. simpl.
    split; [discriminate | constructor; auto].
  - intros [Hne Hall]. destruct Hall as [|c s Hc Hs]; [congruence|].
    change (c :: s) with ([c] ++ s).
    constructor; [now constructor | now apply Matches_star_class].
Qed.

Lemma Forall_notSpaceAt (s : jsstring) :
  Forall (fun c => class_excludes [ClassSpace; ClassChar 64%N] c = true) s
  <-> Forall (fun c => notSpaceNorAt c = true) s.
Proof.
  split; intros H; (eapply Forall_impl; [exact H|]); intros c; simpl;
    now rewrite class_notSpaceAt.
Qed.

(** The pattern of the source accepts exactly the strings of [email_shape]. *)
Lemma email_regex_shape (s : jsstring) :
  regex_test email_regex s = true <-> email_shape s.
Proof.
  rewrite regex_test_Matches. unfold email_regex, email_shape, notSpaceAt. split.
  - intros H.
    inversion H as [ | | | ? ? l s1 Hl H1 | | | | ]; subst; clear H.
    inversion H1 as [ | | | ? ? a s2 Ha H2 | | | | ]; subst; clear H1.
    inversion Ha; subst; clear Ha.
    inversion H2 as [ | | | ? ? d s3 Hd H3 | | | | ]; subst; clear H2.
    inversion H3 as [ | | | ? ? b t Hb Ht | | | | ]; subst; clear H3.
    inversion Hb; subst; clear Hb.
    apply Matches_plus_class in Hl as [? ?], Hd as [? ?], Ht as [? ?].
    exists l, d, t. rewrite <- !Forall_notSpaceAt. simpl. auto 10.
  - intros (l & d & t & -> & Hl & Hd & Ht & Al & Ad & At).
    rewrite <- Forall_notSpaceAt in Al, Ad, At.
    constructor; [apply Matches_plus_class; auto|].
    change (64%N :: d ++ 46%N :: t) with ([64%N] ++ d ++ [46%N] ++ t).
    constructor; [constructor|].
    constructor; [apply Matches_plus_class; auto|].
    constructor; [constructor|]. apply Matches_plus_class; auto.
Qed.

Lemma email_shape_nonempty (s : jsstring) : email_shape s -> s <> [].
Proof. intros (l & d & t & -> & _). now destruct l. Qed.

(** The errors object, key by key. *)
Lemma errors_name_key (values : ContactFormValues) :
  validateContact values !! "name" =
    if truthy (trim (name values)) then None else Some msg_name.
Proof.
  unfold validateContact.
  destruct (truthy (trim (name values))),
    (truthy (trim (email values))),
    (regex_test email_regex (trim (email values))),
    (truthy (trim (message values))),
    (length (trim (message values)) <? 20)%nat;
    simpl; simplify_map_eq; reflexivity.
Qed.

Lemma errors_email_key (values : ContactFormValues) :
  validateContact values !! "email" =
    if truthy (trim (email values))
    then if regex_test email_regex (trim (email values))
         then None else Some msg_email_invalid
    else Some msg_email_empty.
Proof.
  unfold validateContact.
  destruct (truthy (trim (name values))),
    (truthy (trim (email values))),
    (regex_test email_regex (trim (email values))),
    (truthy (trim (message values))),
    (length (trim (message values)) <? 20)%nat;
    simpl; simplify_map_eq; reflexivity.
Qed.

Lemma errors_message_key (values : ContactFormValues) :
  validateContact values !! "message" =
    if truthy (trim (message values))
    then if (length (trim (message values)) <? 20)%nat
         then Some msg_message_short else None
    else Some msg_message_empty.
Proof.
  unfold validateContact.
  destruct (truthy (trim (name values))),
    (truthy (trim (email values))),
    (regex_test email_regex (trim (email values))),
    (truthy (trim (message values))),
    (length (trim (message values)) <? 20)%nat;
    simpl; simplify_map_eq; reflexivity.
Qed.

Lemma errors_other_key (values : ContactFormValues) (key : string) :
  key <> "name" -> key <> "email" -> key <> "message" ->
  validateContact values !! key = None.
Proof.
  intros H1 H2 H3. unfold validateContact.
  destruct (truthy (trim (name values))),
    (truthy (trim (email values))),
    (regex_test email_regex (trim (email values))),
    (truthy (trim (message values))),
    (length (trim (message values)) <? 20)%nat;
    simpl; simplify_map_eq; reflexivity.
Qed.

End Validation.

Section ValidationRules.

Lemma messages_distinct :
  msg_message_empty <> msg_message_short /\ msg_email_empty <> msg_email_invalid.
Proof. split; vm_compute; discriminate. Qed.

Lemma validateContact_empty_iff (values : ContactFormValues) :
  validateContact values = ∅
  <-> validateContact values !! "name" = None /\
      validateContact values !! "email" = None /\
      validateContact values !! "message" = None.
Proof.
  split.
  - intros ->. now rewrite !lookup_empty.
  - intros (Hn & He & Hm). apply map_eq. intros key. rewrite lookup_empty.
    destruct (decide (key = "name")) as [->|?]; [exact Hn|].
    destruct (decide (key = "email")) as [->|?]; [exact He|].
    destruct (decide (key = "message")) as [->|?]; [exact Hm|].
    now apply errors_other_key.
Qed.

Lemma email_key_None (values : ContactFormValues) :
  validateContact values !! "email" = None <-> email_shape (trim (email values)).
Proof.
  rewrite errors_email_key, <- email_regex_shape.
  destruct (truthy (trim (email values))) eqn:Ht.
  - destruct (regex_test email_regex (trim (email values))); split; congruence.
  - apply truthy_false in Ht. rewrite Ht. simpl. split; discriminate.
Qed.

Lemma name_key_None (values : ContactFormValues) :
  validateContact values !! "name" = None <-> trim (name values) <> [].
Proof.
  rewrite errors_name_key, <- truthy_true.
  destruct (truthy (trim (name values))); split; congruence.
Qed.

Lemma message_key_None (values : ContactFormValues) :
  validateContact values !! "message" = None
  <-> (20 <= length (trim (message values)))%nat.
Proof.
  rewrite errors_message_key.
  destruct (truthy (trim (message values))) eqn:Ht.
  - destruct (Nat.ltb_spec (length (trim (message values))) 20);
      split; intros; (congruence || lia).
  - apply truthy_false in Ht. rewrite Ht. simpl. split; [discriminate | lia].
Qed.

Lemma name_key_Some (values : ContactFormValues) :
  validateContact values !! "name" = Some msg_name <-> trim (name values) = [].
Proof.
  rewrite errors_name_key, <- truthy_false.
  destruct (truthy (trim (name values))); split; congruence.
Qed.

Lemma message_key_empty (values : ContactFormValues) :
  validateContact values !! "message" = Some msg_message_empty
  <-> trim (message values) = [].
Proof.
  destruct messages_distinct as [Hmsg _].
  rewrite errors_message_key, <- truthy_false.
  destruct (truthy (trim (message values)));
    destruct (length (trim (message values)) <? 20)%nat;
    split; congruence.
Qed.

Lemma message_key_short (values : ContactFormValues) :
  validateContact values !! "message" = Some msg_message_short
  <-> trim (message values) <> [] /\ (length (trim (message values)) < 20)%nat.
Proof.
  destruct messages_distinct as [Hmsg _].
  rewrite errors_message_key, <- truthy_true.
  destruct (truthy (trim (message values)));
    destruct (Nat.ltb_spec (length (trim (message values))) 20); split.
  all: try (intros [? ?]); try intros ?; try congruence; try lia.
  all: split; [congruence | lia].
Qed.

Lemma entries_only_failing (values : ContactFormValues) (key : string) :
  is_Some (validateContact values !! key)
  <-> key = "name" /\ name_fails values \/
      key = "email" /\ email_fails values \/
      key = "message" /\ message_fails values.
Proof.
  rewrite <- not_eq_None_Some. unfold name_fails, email_fails, message_fails.
  destruct (decide (key = "name")) as [->|Hn].
  { rewrite name_key_None. split.
    - intros H. left. split; [reflexivity|].
      destruct (trim (name values)); [reflexivity | now destruct H].
    - intros [[_ H] | [[? _] | [? _]]]; [|discriminate..]. rewrite H. tauto. }
  destruct (decide (key = "email")) as [->|He].
  { rewrite email_key_None. split.
    - intros H. right; left. easy.
    - intros [[? _] | [[_ H] | [? _]]]; [discriminate | exact H | discriminate]. }
  destruct (decide (key = "message")) as [->|Hm].
  { rewrite message_key_None. split.
    - intros H. right; right. split; [reflexivity | lia].
    - intros [[? _] | [[? _] | [_ H]]]; [discriminate.. | lia]. }
  rewrite errors_other_key by assumption. split; [congruence|].
  intros [[? _] | [[? _] | [? _]]]; congruence.
Qed.

Lemma valid_iff_empty (values : ContactFormValues) :
  isContactValid values = true <-> validateContact values = ∅.
Proof. unfold isContactValid. rewrite Nat.eqb_eq. apply map_size_empty_iff. Qed.

Lemma empty_iff_no_failure (values : ContactFormValues) :
  validateContact values = ∅
  <-> ~ name_fails values /\ ~ email_fails values /\ ~ message_fails values.
Proof.
  rewrite validateContact_empty_iff, name_key_None, email_key_None, message_key_None.
  unfold name_fails, email_fails, message_fails.
  assert (Hdec : email_shape (trim (email values))
                 \/ ~ email_shape (trim (email values))).
  { rewrite <- email_regex_shape.
    destruct (regex_test email_regex (trim (email values))); [left | right]; congruence. }
  split; intros (Hn & He & Hm); repeat split; try assumption; try tauto; lia.
Qed.

Lemma validateContact_emptyValues :
  validateContact emptyValues =
    {[ "name" := msg_name; "email" := msg_email_empty;
       "message" := msg_message_empty ]}.
Proof. vm_compute. reflexivity. Qed.

(** C1. [validateContact] trims each field and reports: for [name],
    "Please enter your name." exactly when the trimmed name is empty; for
    [message], "Please write a message." exactly when the trimmed message is
    empty and otherwise "Please write at least 20 characters." exactly when
    its trimmed length is below 20. The object has an entry for a key
    exactly when that key is a field that fails, the form is valid
    ([isContactValid]) exactly when the object is empty, that is when no
    field fails, and the function returns a value on every input, the fully
    empty one included. *)
Theorem validateContact_name_message (values : ContactFormValues) :
  (validateContact values !! "name" = Some msg_name
   <-> trim (name values) = []) /\
  (validateContact values !! "name" = None
   <-> trim (name values) <> []) /\
  (validateContact values !! "message" = Some msg_message_empty
   <-> trim (message values) = []) /\
  (validateContact values !! "message" = Some msg_message_short
   <-> trim (message values) <> [] /\ (length (trim (message values)) < 20)%nat) /\
  (validateContact values !! "message" = None
   <-> (20 <= length (trim (message values)))%nat) /\
  (forall key : string,
      is_Some (validateContact values !! key)
      <-> key = "name" /\ name_fails values \/
          key = "email" /\ email_fails values \/
          key = "message" /\ message_fails values) /\
  (isContactValid values = true <-> validateContact values = ∅) /\
  (validateContact values = ∅
   <-> ~ name_fails values /\ ~ email_fails values /\ ~ message_fails values) /\
  validateContact emptyValues =
    {[ "name" := msg_name; "email" := msg_email_empty;
       "message" := msg_message_empty ]}.
Proof.
  split; [apply name_key_Some|].
  split; [apply name_key_None|].
  split; [apply message_key_empty|].
  split; [apply message_key_short|].
  split; [apply message_key_None|].
  split; [intros key; apply entries_only_failing|].
  split; [apply valid_iff_empty|].
  split; [apply empty_iff_no_failure|].
  apply validateContact_emptyValues.
Qed.

Lemma email_key_empty (values : ContactFormValues) :
  validateContact values !! "email" = Some msg_email_empty
  <-> trim (email values) = [].
Proof.
  destruct messages_distinct as [_ Hmsg].
  rewrite errors_email_key, <- truthy_false.
  destruct (truthy (trim (email values)));
    destruct (regex_test email_regex (trim (email values)));
    split; congruence.
Qed.

Lemma email_key_invalid (values : ContactFormValues) :
  validateContact values !! "email" = Some msg_email_invalid
  <-> trim (email values) <> [] /\ ~ email_shape (trim (email values)).
Proof.
  destruct messages_distinct as [_ Hmsg].
  rewrite errors_email_key, <- truthy_true, <- email_regex_shape.
  destruct (truthy (trim (email values)));
    destruct (regex_test email_regex (trim (email values))); split.
  all: try (intros [? ?]); try intros ?; try congruence.
  split; congruence.
Qed.

(** C2, as stated, fails: for the address "a@b.c@d" the validator reports
    "Please enter a valid email address.", although the address matches the
    pattern as specified, whose last part only excludes white space. *)
Lemma email_rule_as_specified_fails :
  ~ email_rule_as_specified secondAtValues.
Proof.
  intros [_ [Hinv _]].
  assert (Herr : validateContact secondAtValues !! "email" = Some msg_email_invalid)
    by (vm_compute; reflexivity).
  apply Hinv in Herr as [_ Hspec].
  vm_compute in Hspec. discriminate.
Qed.

(** C2, amended. [validateContact] reports "Please enter your email."
    exactly when the trimmed email is empty, and otherwise "Please enter a
    valid email address." exactly when the trimmed email is not of the form:
    one or more characters that are neither white space nor "@", then "@",
    then one or more such characters, then ".", then one or more characters
    that are again neither white space nor "@". No email entry is reported
    exactly when the trimmed email has that form, which is also what the
    pattern of the source accepts. *)
Theorem validateContact_email_rule (values : ContactFormValues) :
  (validateContact values !! "email" = Some msg_email_empty
   <-> trim (email values) = []) /\
  (validateContact values !! "email" = Some msg_email_invalid
   <-> trim (email values) <> [] /\ ~ email_shape (trim (email values))) /\
  (validateContact values !! "email" = None
   <-> email_shape (trim (email values))) /\
  (regex_test email_regex (trim (email values)) = true
   <-> email_shape (trim (email values))).
Proof.
  split; [apply email_key_empty|].
  split; [apply email_key_invalid|].
  split; [apply email_key_None|].
  apply email_regex_shape.
Qed.

End ValidationRules.

(** ** Contact form session *)

Section Session.

Lemma get_set_field {A : Type} (k k' : field) (v : A) (o : fields A) :
  get_field k' (set_field k v o) = if decide (k' = k) then v else get_field k' o.
Proof. destruct k, k'; reflexivity. Qed.

Lemma submit_valid (s : session) :
  isContactValid (contactValues s) = true ->
  form_step s Submit = mkSession emptyValues noneTouched true.
Proof. intros H. unfold form_step, onContactSubmit. rewrite H. reflexivity. Qed.

Lemma submit_invalid (s : session) :
  isContactValid (contactValues s) = false ->
  form_step s Submit = mkSession (contactValues s) allTouched (contactSubmitted s).
Proof. intros H. unfold form_step, onContactSubmit. rewrite H. reflexivity. Qed.

Lemma change_step (s : session) (k : field) (value : jsstring) :
  form_step s (Change k value) =
    mkSession (set_field k value (contactValues s)) (contactTouched s) false.
Proof. reflexivity. Qed.

Lemma reset_clears (s : session) : form_step s Reset = initialSession.
Proof. reflexivity. Qed.

Lemma blur_touches (s : session) (k k' : field) :
  get_field k' (contactTouched (form_step s (Blur k)))
  = if decide (k' = k) then true else get_field k' (contactTouched s).
Proof. apply get_set_field. Qed.

Lemma untouched_hides_error (s : session) (k : field) :
  get_field k (contactTouched s) = false -> shownError s k = None.
Proof. unfold shownError. now intros ->. Qed.

(** C3. A submit attempt first queues the update that marks all three
    fields touched. If [validateContact] of the current values is empty the
    session ends with [submitted = true], all values empty and all touched
    flags false; otherwise values and [submitted] are unchanged and every
    field is touched. A field change, after a submit or in any other state,
    sets [submitted] to false, gives the changed field its new value and
    leaves the other values and the touched flags as they were. *)
Theorem submit_then_change (s : session) :
  (exists rest,
      onContactSubmit s = SetContactTouched (fun _ => allTouched) :: rest /\
      contactTouched (flush s [SetContactTouched (fun _ => allTouched)]) = allTouched) /\
  form_step s Submit =
    (if bool_decide (validateContact (contactValues s) = ∅)
     then mkSession emptyValues noneTouched true
     else mkSession (contactValues s) allTouched (contactSubmitted s)) /\
  (forall (k k' : field) (value : jsstring) (s' : session),
      contactSubmitted (form_step s' (Change k value)) = false /\
      contactTouched (form_step s' (Change k value)) = contactTouched s' /\
      get_field k' (contactValues (form_step s' (Change k value))) =
        (if decide (k' = k) then value else get_field k' (contactValues s'))) /\
  (forall (k k' : field) (value : jsstring),
      contactSubmitted (form_step (form_step s Submit) (Change k value)) = false /\
      get_field k' (contactValues (form_step (form_step s Submit) (Change k value))) =
        (if decide (k' = k) then value
         else get_field k' (contactValues (form_step s Submit)))).
Proof.
  split.
  { eexists. split; reflexivity. }
  split.
  { case_bool_decide as Hv.
    - apply submit_valid. now apply valid_iff_empty.
    - apply submit_invalid. destruct (isContactValid (contactValues s)) eqn:E;
        [|reflexivity]. apply valid_iff_empty in E. contradiction. }
  split.
  - intros k k' value s'. rewrite change_step. simpl.
    repeat split. apply get_set_field.
  - intros k k' value. rewrite change_step. simpl.
    split; [reflexivity | apply get_set_field].
Qed.

End Session.


(** ** Sorting with a comparator *)

Section Sort.

Context {A : Type} (cmp : A -> A -> Q).

Let before (x y : A) : Prop := Qle_bool (cmp x y) 0 = true.

Hypothesis before_total : forall x y, before x y \/ before y x.
Hypothesis before_trans : forall x y z, before x y -> before y z -> before x z.

Lemma sort_insert_In (x y : A) (l : list A) :
  In y (sort_insert cmp x l) <-> y = x \/ In y l.
Proof.
  induction l as [|z l IH]; simpl.
  - intuition congruence.
  - destruct (Qle_bool (cmp x z) 0); simpl; [|rewrite IH]; intuition congruence.
Qed.

Lemma array_sort_In (y : A) (l : list A) :
  In y (array_sort cmp l) <-> In y l.
Proof.
  induction l as [|x l IH]; simpl; [tauto|].
  rewrite sort_insert_In, IH. intuition congruence.
Qed.

Lemma array_sort_nil (l : list A) : array_sort cmp l = [] -> l = [].
Proof.
  destruct l as [|x l]; [reflexivity|]. intros H.
  assert (Hin : In x (array_sort cmp (x :: l))) by (apply array_sort_In; now left).
  rewrite H in Hin. destruct Hin.
Qed.

Lemma sort_insert_perm (x : A) (l : list A) :
  Permutation (x :: l) (sort_insert cmp x l).
Proof.
  induction l as [|y l IH]; simpl; [reflexivity|].
  destruct (Qle_bool (cmp x y) 0); [reflexivity|].
  rewrite perm_swap. now constructor.
Qed.

(** [array_sort] rearranges the array *)
Lemma array_sort_perm (l : list A) : Permutation l (array_sort cmp l).
Proof.
  induction l as [|x l IH]; simpl; [reflexivity|].
  rewrite <- sort_insert_perm. now constructor.
Qed.

Lemma sort_insert_sorted (x : A) (l : list A) :
  StronglySorted before l -> StronglySorted before (sort_insert cmp x l).
Proof.
  induction 1 as [|y l Hl IH Hy]; simpl.
  - repeat constructor.
  - destruct (Qle_bool (cmp x y) 0) eqn:Hxy.
    + constructor; [now constructor|]. constructor; [exact Hxy|].
      eapply Forall_impl; [exact Hy|]. intros z Hz. now apply (before_trans x y z).
    + constructor; [exact IH|].
      rewrite <- sort_insert_perm. constructor; [|exact Hy].
      destruct (before_total x y) as [H|H]; [|exact H].
      unfold before in H. congruence.
Qed.

(** into the order of the comparator. *)
Lemma array_sort_sorted (l : list A) : StronglySorted before (array_sort cmp l).
Proof.
  induction l as [|x l IH]; simpl; [constructor | now apply sort_insert_sorted].
Qed.

(** The first element of the sorted array comes before every element. *)
Lemma array_sort_head (l : list A) (h : A) (rest : list A) :
  array_sort cmp l = h :: rest -> forall y, In y l -> before h y.
Proof.
  revert h rest. induction l as [|x l IH]; intros h rest Hs y Hy; [destruct Hy|].
  simpl in Hs. destruct (array_sort cmp l) as [|z l'] eqn:Hl.
  - apply array_sort_nil in Hl. subst l. simpl in Hs. injection Hs as <- _.
    destruct Hy as [<-|[]]. destruct (before_total x x); assumption.
  - specialize (IH z l' eq_refl). simpl in Hs.
    destruct (Qle_bool (cmp x z) 0) eqn:Hxz.
    + injection Hs as <- _. destruct Hy as [<-|Hy].
      * destruct (before_total x x); assumption.
      * eapply before_trans; [exact Hxz | now apply IH].
    + injection Hs as <- _. destruct Hy as [<-|Hy].
      * destruct (before_total x z) as [H|H]; [|exact H].
        unfold before in H. congruence.
      * now apply IH.
Qed.

End Sort.

(** ** Scroll spy *)

Section Ranking.

Lemma compareVisible_outranks (a b : visible_section) :
  Qle_bool (compareVisible a b) 0 = true <-> outranks a b.
Proof.
  unfold compareVisible, outranks. rewrite Qle_bool_iff.
  destruct (Qeq_bool (ratio b) (ratio a)) eqn:E; simpl.
  - apply Qeq_bool_iff in E. split.
    + intros H. right. split; [exact E | lra].
    + intros [H | [_ H]]; lra.
  - apply Qeq_bool_neq in E. split.
    + intros H. left. destruct (Qlt_le_dec (ratio b) (ratio a)) as [?|Hle];
        [assumption|]. exfalso. apply E. lra.
    + intros [H | [H _]]; [lra | contradiction].
Qed.

Lemma outranks_total (a b : visible_section) : outranks a b \/ outranks b a.
Proof.
  unfold outranks.
  destruct (Qlt_le_dec (ratio b) (ratio a)) as [?|H1]; [tauto|].
  destruct (Qlt_le_dec (ratio a) (ratio b)) as [?|H2]; [tauto|].
  assert (ratio b == ratio a)%Q by lra.
  destruct (Qlt_le_dec (Qabs (top b)) (Qabs (top a))) as [H3|H3].
  - right. right. split; [lra | lra].
  - left. right. split; assumption.
Qed.

Lemma outranks_trans (a b c : visible_section) :
  outranks a b -> outranks b c -> outranks a c.
Proof.
  unfold outranks. intros [H1 | [H1 H1']] [H2 | [H2 H2']].
  - left. lra.
  - left. lra.
  - left. lra.
  - right. split; lra.
Qed.

(** The head of [visibleSections] is an intersecting entry that outranks
    every intersecting entry. *)
Lemma visibleSections_head (entries : list (IntersectionObserverEntry jsstring))
    (v : visible_section) (rest : list visible_section) :
  visibleSections entries = v :: rest ->
  (exists e, In e entries /\ isIntersecting e = true /\ v = toVisible e) /\
  (forall e, In e entries -> isIntersecting e = true -> outranks v (toVisible e)).
Proof.
  unfold visibleSections. intros Hs. split.
  - assert (Hin : In v (v :: rest)) by now left.
    rewrite <- Hs in Hin. apply array_sort_In in Hin.
    apply in_map_iff in Hin as (e & <- & He). apply filter_In in He as [? ?].
    eauto.
  - intros e He Hi. apply compareVisible_outranks.
    eapply (array_sort_head compareVisible); [| | exact Hs |].
    + intros x y. rewrite !compareVisible_outranks. apply outranks_total.
    + intros x y z. rewrite !compareVisible_outranks. apply outranks_trans.
    + apply in_map. apply filter_In. auto.
Qed.

Lemma visibleSections_nil (entries : list (IntersectionObserverEntry jsstring)) :
  visibleSections entries = [] <->
  forall e, In e entries -> isIntersecting e = false.
Proof.
  unfold visibleSections. split.
  - intros H e He. apply array_sort_nil in H.
    destruct (isIntersecting e) eqn:Hi; [|reflexivity].
    assert (Hin : In (toVisible e) (map toVisible (List.filter isIntersecting entries)))
      by (apply in_map, filter_In; auto).
    rewrite H in Hin. destruct Hin.
  - intros H. replace (List.filter isIntersecting entries) with (@nil (IntersectionObserverEntry jsstring)); [reflexivity|].
    symmetry. induction entries as [|e l IH]; [reflexivity|]. simpl.
    rewrite (H e) by now left. apply IH. intros e' He'. apply H. now right.
Qed.

End Ranking.

Section Rounding.

Lemma pow2_pos (e : Z) : (0 < pow2 e)%Q.
Proof. apply Qpower_0_lt. reflexivity. Qed.

Lemma pow2_le (a b : Z) : (a <= b)%Z -> (pow2 a <= pow2 b)%Q.
Proof. intros H. apply Qpower_le_compat_l; [exact H | discriminate]. Qed.

Lemma pow2_lt_inv (a b : Z) : (pow2 a < pow2 b)%Q -> (a < b)%Z.
Proof. intros H. apply (Qpower_lt_compat_l_inv 2); [exact H | reflexivity]. Qed.

Lemma pow2_plus (a b : Z) : (pow2 (a + b) == pow2 a * pow2 b)%Q.
Proof. apply Qpower_plus. discriminate. Qed.

Lemma pow2_Z (a : Z) : (0 <= a)%Z -> (inject_Z (2 ^ a) == pow2 a)%Q.
Proof. intros H. now apply Zpower_Qpower. Qed.

Lemma Qlog2_spec (x : Q) :
  (0 < x)%Q -> (pow2 (Qlog2 x) <= x)%Q /\ (x < pow2 (Qlog2 x + 1))%Q.
Proof.
  intros Hx. destruct x as [n d]. unfold Qlog2. cbn [Qnum Qden].
  assert (Hn : (0 < n)%Z).
  { unfold Qlt in Hx. simpl in Hx. lia. }
  set (a := Z.log2 n). set (b := Z.log2 (Zpos d)).
  assert (Ha : (2 ^ a <= n < 2 ^ (a + 1))%Z).
  { unfold a. replace (Z.log2 n + 1)%Z with (Z.succ (Z.log2 n)) by lia.
    now apply Z.log2_spec. }
  assert (Hb : (2 ^ b <= Zpos d < 2 ^ (b + 1))%Z).
  { unfold b. replace (Z.log2 (Zpos d) + 1)%Z with (Z.succ (Z.log2 (Zpos d))) by lia.
    apply Z.log2_spec. lia. }
  assert (Ha0 : (0 <= a)%Z) by apply Z.log2_nonneg.
  assert (Hb0 : (0 <= b)%Z) by apply Z.log2_nonneg.
  (* in Q *)
  assert (Hx' : (n # d == inject_Z n / inject_Z (Zpos d))%Q) by apply Qmake_Qdiv.
  assert (Hd : (0 < inject_Z (Zpos d))%Q) by (unfold Qlt; simpl; lia).
  assert (Hup : (n # d < pow2 (a - b + 1))%Q).
  { rewrite Hx'. apply Qlt_shift_div_r; [exact Hd|].
    apply Qlt_le_trans with (pow2 (a - b + 1) * pow2 b)%Q.
    - rewrite <- pow2_plus. replace (a - b + 1 + b)%Z with (a + 1)%Z by lia.
      rewrite <- pow2_Z by lia. rewrite <- Zlt_Qlt. lia.
    - apply Qmult_le_l; [apply pow2_pos|].
      rewrite <- pow2_Z by lia. rewrite <- Zle_Qle. lia. }
  assert (Hlo : (pow2 (a - b - 1) <= n # d)%Q).
  { rewrite Hx'. apply Qle_shift_div_l; [exact Hd|].
    apply Qle_trans with (pow2 (a - b - 1) * pow2 (b + 1))%Q.
    - apply Qmult_le_l; [apply pow2_pos|].
      rewrite <- pow2_Z by lia. rewrite <- Zle_Qle. lia.
    - rewrite <- pow2_plus. replace (a - b - 1 + (b + 1))%Z with a by lia.
      rewrite <- pow2_Z by lia. rewrite <- Zle_Qle. lia. }
  destruct (Qle_bool (pow2 (a - b)) (n # d)) eqn:E.
  - apply Qle_bool_iff in E. split; assumption.
  - split; [exact Hlo|]. replace (a - b - 1 + 1)%Z with (a - b)%Z by lia.
    apply Qnot_le_lt. intros H. apply Qle_bool_iff in H. congruence.
Qed.

Lemma Qlog2_mono (x y : Q) :
  (0 < x)%Q -> (x <= y)%Q -> (Qlog2 x <= Qlog2 y)%Z.
Proof.
  intros Hx Hxy.
  destruct (Qlog2_spec x Hx) as [Hlx _].
  destruct (Qlog2_spec y (Qlt_le_trans _ _ _ Hx Hxy)) as [_ Huy].
  assert (H : (pow2 (Qlog2 x) < pow2 (Qlog2 y + 1))%Q).
  { eapply Qle_lt_trans; [exact Hlx|]. eapply Qle_lt_trans; eassumption. }
  apply pow2_lt_inv in H. lia.
Qed.

Lemma round_half_even_bounds (q : Q) :
  (Qfloor q <= round_half_even q <= Qfloor q + 1)%Z.
Proof.
  unfold round_half_even.
  destruct (q - inject_Z (Qfloor q) ?= 1 # 2)%Q; try destruct (Z.even (Qfloor q)); lia.
Qed.

Lemma round_half_even_mono (p q : Q) :
  (p <= q)%Q -> (round_half_even p <= round_half_even q)%Z.
Proof.
  intros Hpq. pose proof (Qfloor_resp_le p q Hpq) as Hf.
  pose proof (round_half_even_bounds p) as Bp.
  pose proof (round_half_even_bounds q) as Bq.
  destruct (Z.eq_dec (Qfloor p) (Qfloor q)) as [E|NE]; [|lia].
  unfold round_half_even in *. rewrite <- E in *.
  destruct (Qcompare_spec (p - inject_Z (Qfloor p)) (1 # 2)) as [Hp|Hp|Hp];
    destruct (Qcompare_spec (q - inject_Z (Qfloor p)) (1 # 2)) as [Hq|Hq|Hq];
    try destruct (Z.even (Qfloor p)); try lia; exfalso; lra.
Qed.

Lemma round_half_even_Z (n : Z) : round_half_even (inject_Z n) = n.
Proof.
  unfold round_half_even. rewrite Qfloor_Z.
  destruct (Qcompare_spec (inject_Z n - inject_Z n) (1 # 2)) as [H|H|H];
    [exfalso; lra | reflexivity | exfalso; lra].
Qed.

Lemma round64_pos_nonneg (x : Q) : (0 < x)%Q -> (0 <= round64_pos x)%Q.
Proof.
  intros Hx. unfold round64_pos.
  set (e := Z.max (-1074) (Qlog2 x - 52)).
  apply Qmult_le_0_compat; [|apply Qlt_le_weak, pow2_pos].
  change 0%Q with (inject_Z 0). rewrite <- Zle_Qle.
  rewrite <- (round_half_even_Z 0). apply round_half_even_mono.
  apply Qle_shift_div_l; [apply pow2_pos|].
  change (inject_Z 0) with 0%Q. rewrite Qmult_0_l. lra.
Qed.

Lemma round64_pos_mono (x y : Q) :
  (0 < x)%Q -> (x <= y)%Q -> (round64_pos x <= round64_pos y)%Q.
Proof.
  intros Hx Hxy. assert (Hy : (0 < y)%Q) by lra.
  pose proof (Qlog2_mono x y Hx Hxy) as Hk.
  destruct (Qlog2_spec x Hx) as [Hlx Hux].
  destruct (Qlog2_spec y Hy) as [Hly Huy].
  unfold round64_pos.
  set (ex := Z.max (-1074) (Qlog2 x - 52)).
  set (ey := Z.max (-1074) (Qlog2 y - 52)).
  assert (Hex : (ex <= ey)%Z) by (unfold ex, ey; lia).
  destruct (Z.eq_dec ex ey) as [E|NE].
  - rewrite <- E. apply Qmult_le_compat_r; [|apply Qlt_le_weak, pow2_pos].
    rewrite <- Zle_Qle. apply round_half_even_mono.
    apply Qmult_le_compat_r; [exact Hxy|].
    apply Qlt_le_weak, Qinv_lt_0_compat, pow2_pos.
  - assert (Hey : ey = (Qlog2 y - 52)%Z) by (unfold ex, ey in *; lia).
    assert (Hex' : (Qlog2 x - 52 <= ex)%Z) by (unfold ex; lia).
    apply Qle_trans with (pow2 (52 + ey)).
    + apply Qle_trans with (inject_Z (2 ^ 53) * pow2 ex)%Q.
      * apply Qmult_le_compat_r; [|apply Qlt_le_weak, pow2_pos].
        rewrite <- Zle_Qle. rewrite <- (round_half_even_Z (2 ^ 53)).
        apply round_half_even_mono.
        apply Qle_shift_div_r; [apply pow2_pos|].
        rewrite pow2_Z by lia. rewrite <- pow2_plus.
        apply Qlt_le_weak. eapply Qlt_le_trans; [exact Hux|].
        apply pow2_le. lia.
      * rewrite pow2_Z by lia. rewrite <- pow2_plus. apply pow2_le. lia.
    + apply Qle_trans with (inject_Z (2 ^ 52) * pow2 ey)%Q.
      * rewrite pow2_Z by lia. rewrite <- pow2_plus. apply Qle_refl.
      * apply Qmult_le_compat_r; [|apply Qlt_le_weak, pow2_pos].
        rewrite <- Zle_Qle. rewrite <- (round_half_even_Z (2 ^ 52)).
        apply round_half_even_mono.
        apply Qle_shift_div_l; [apply pow2_pos|].
        rewrite pow2_Z by lia. rewrite <- pow2_plus.
        eapply Qle_trans; [|exact Hly]. apply pow2_le. lia.
Qed.

Lemma round64_mono (x y : Q) : (x <= y)%Q -> (round64 x <= round64 y)%Q.
Proof.
  intros Hxy. unfold round64.
  destruct (Qcompare_spec x 0) as [Hx|Hx|Hx];
    destruct (Qcompare_spec y 0) as [Hy|Hy|Hy]; try (exfalso; lra).
  - apply Qle_refl.
  - now apply round64_pos_nonneg.
  - pose proof (round64_pos_nonneg (- x)). lra.
  - assert (H1 : (0 <= round64_pos (- y))%Q) by (apply round64_pos_nonneg; lra).
    assert (H2 : (round64_pos (- y) <= round64_pos (- x))%Q)
      by (apply round64_pos_mono; lra).
    lra.
  - pose proof (round64_pos_nonneg (- x)). pose proof (round64_pos_nonneg y). lra.
  - now apply round64_pos_mono.
Qed.

Lemma round_half_even_near (q : Q) :
  (Qabs (q - inject_Z (round_half_even q)) <= 1 # 2)%Q.
Proof.
  pose proof (Qfloor_le q) as Hlo. pose proof (Qlt_floor q) as Hhi.
  rewrite inject_Z_plus in Hhi. change (inject_Z 1) with 1%Q in Hhi.
  unfold round_half_even.
  destruct (Qcompare_spec (q - inject_Z (Qfloor q)) (1 # 2)) as [H|H|H];
    try destruct (Z.even (Qfloor q));
    rewrite ?inject_Z_plus; change (inject_Z 1) with 1%Q;
    apply Qabs_case; intros; lra.
Qed.

Lemma round_half_even_comp (p q : Q) :
  (p == q)%Q -> round_half_even p = round_half_even q.
Proof.
  intros H. apply Z.le_antisymm; apply round_half_even_mono; rewrite H; apply Qle_refl.
Qed.

(** A value [m * 2^e] with [m] below [2^53] and [e] at least [-1074] is a
    double, and rounding leaves it as it is. *)
Lemma round64_pos_representable (m e : Z) :
  (0 < m < 2 ^ 53)%Z -> (-1074 <= e)%Z ->
  (round64_pos (inject_Z m * pow2 e) == inject_Z m * pow2 e)%Q.
Proof.
  intros Hm He. set (x := (inject_Z m * pow2 e)%Q).
  assert (Hx : (0 < x)%Q).
  { unfold x. apply Qmult_lt_0_compat; [|apply pow2_pos].
    change 0%Q with (inject_Z 0). rewrite <- Zlt_Qlt. lia. }
  destruct (Qlog2_spec x Hx) as [Hl _].
  assert (Hk : (Qlog2 x < 53 + e)%Z).
  { apply pow2_lt_inv. eapply Qle_lt_trans; [exact Hl|].
    unfold x. rewrite pow2_plus. apply Qmult_lt_r; [apply pow2_pos|].
    rewrite <- pow2_Z by lia. rewrite <- Zlt_Qlt. lia. }
  unfold round64_pos. fold x.
  set (ex := Z.max (-1074) (Qlog2 x - 52)).
  assert (Hex : (ex <= e)%Z) by (unfold ex; lia).
  assert (Hq : (x / pow2 ex == inject_Z (m * 2 ^ (e - ex)))%Q).
  { unfold x. rewrite inject_Z_mult, pow2_Z by lia.
    replace e with ((e - ex) + ex)%Z at 1 by lia. rewrite pow2_plus.
    field. intros H0. pose proof (pow2_pos ex). lra. }
  rewrite (round_half_even_comp _ _ Hq), round_half_even_Z. unfold x.
  rewrite inject_Z_mult, pow2_Z by lia.
  replace e with ((e - ex) + ex)%Z at 2 by lia. rewrite pow2_plus. ring.
Qed.

Lemma double_add_mono (x y c : Q) :
  (x <= y)%Q -> (double_add x c <= double_add y c)%Q.
Proof. intros H. apply round64_mono. lra. Qed.

End Rounding.

Section Fallback.

Lemma last_cons_default {A : Type} (x d : A) (l : list A) :
  List.last (x :: l) d = List.last l x.
Proof.
  revert x d. induction l as [|y l IH]; intros x d; [reflexivity|].
  change (List.last (x :: y :: l) d) with (List.last (y :: l) d).
  now rewrite (IH y d), (IH y x).
Qed.

Lemma scroll_loop_last (doc : document) (scrollY : Q) (ids : list jsstring) :
  forall init,
    fold_left
      (fun current id =>
         match getElementById doc id with
         | None => current
         | Some offsetTop =>
             if Qle_bool (inject_Z offsetTop) (double_add scrollY headerOffset)
             then id else current
         end) ids init
    = List.last (List.filter (qualifies doc scrollY) ids) init.
Proof.
  induction ids as [|x l IH]; intros init; simpl; [reflexivity|].
  rewrite IH. destruct (qualifies doc scrollY x) eqn:Eq; unfold qualifies in Eq;
    destruct (getElementById doc x) as [off|]; try discriminate;
    rewrite ?Eq; try reflexivity.
  now rewrite last_cons_default.
Qed.

Lemma qualifies_truthy (doc : document) (scrollY : Q) (id : jsstring) :
  qualifies doc scrollY id = true -> truthy id = true.
Proof.
  unfold qualifies, getElementById. destruct (truthy id); [reflexivity | discriminate].
Qed.

Lemma filter_qualifies_known (doc : document) (scrollY : Q) (l : list jsstring) :
  List.filter (qualifies doc scrollY) (List.filter truthy l)
  = List.filter (qualifies doc scrollY) l.
Proof.
  induction l as [|x l IH]; simpl; [reflexivity|].
  destruct (truthy x) eqn:Et; simpl.
  - now rewrite IH.
  - destruct (qualifies doc scrollY x) eqn:Eq; [|exact IH].
    apply qualifies_truthy in Eq. congruence.
Qed.

Lemma scrollCurrent_last (cfg : spy_config) (doc : document) (scrollY : Q) :
  scrollCurrent (knownIds cfg) doc scrollY
  = List.last (List.filter (qualifies doc scrollY) (sectionIds cfg))
      (hd [] (knownIds cfg)).
Proof.
  unfold scrollCurrent. rewrite scroll_loop_last. unfold knownIds.
  now rewrite filter_qualifies_known.
Qed.

Lemma last_In {A : Type} (l : list A) (d : A) :
  l <> [] -> In (List.last l d) l.
Proof.
  induction l as [|x l IH]; [congruence|]. intros _.
  destruct l as [|y l]; [now left|].
  right. apply IH. discriminate.
Qed.

Lemma scrollCurrent_In (ids : list jsstring) (doc : document) (scrollY : Q) :
  ids <> [] -> In (scrollCurrent ids doc scrollY) ids.
Proof.
  intros Hne. unfold scrollCurrent. rewrite scroll_loop_last.
  destruct (List.filter (qualifies doc scrollY) ids) as [|x l] eqn:Ef.
  - destruct ids; [congruence | now left].
  - assert (Hsub : forall y, In y (x :: l) -> In y ids).
    { intros y Hy. rewrite <- Ef in Hy. now apply filter_In in Hy as [? _]. }
    apply Hsub, last_In. discriminate.
Qed.

End Fallback.

Section ScrollSpy.

Lemma knownIds_sub (cfg : spy_config) (t : jsstring) :
  In t (knownIds cfg) -> In t (sectionIds cfg).
Proof. unfold knownIds. intros H. now apply filter_In in H as [? _]. Qed.

Lemma setActiveId_installed (call : option jsstring) (s : spy) :
  installed (setActiveId call s) = installed s.
Proof. destruct call; reflexivity. Qed.

Lemma setActiveId_latest (call : option jsstring) (s : spy) :
  latestActive (setActiveId call s) = latestActive s.
Proof. destruct call; reflexivity. Qed.

Lemma setActiveId_active (call : option jsstring) (s : spy) :
  activeId (setActiveId call s) = default (activeId s) call.
Proof. destruct call; reflexivity. Qed.

Lemma onScroll_cases (ids : list jsstring) (latest : jsstring)
    (doc : document) (scrollY : Q) :
  (onScroll ids latest doc scrollY = Some (scrollCurrent ids doc scrollY)
   /\ scrollCurrent ids doc scrollY <> latest) \/
  (onScroll ids latest doc scrollY = None
   /\ scrollCurrent ids doc scrollY = latest).
Proof.
  unfold onScroll. case_bool_decide as H; [left | right]; split; try reflexivity;
    [exact H|]. destruct (decide (scrollCurrent ids doc scrollY = latest)); tauto.
Qed.

Lemma observerCallback_cases (latest : jsstring)
    (entries : list (IntersectionObserverEntry jsstring)) :
  (visibleSections entries = [] /\ observerCallback latest entries = None) \/
  (exists v rest, visibleSections entries = v :: rest /\
     ((observerCallback latest entries = Some (id v) /\ id v <> latest) \/
      (observerCallback latest entries = None /\ id v = latest))).
Proof.
  unfold observerCallback. destruct (visibleSections entries) as [|v rest].
  - now left.
  - right. exists v, rest. split; [reflexivity|].
    case_bool_decide as H; [left | right]; split; try reflexivity; [exact H|].
    destruct (decide (id v = latest)); tauto.
Qed.

Lemma spy_inv_init (cfg : spy_config) (first : jsstring) (rest : list jsstring) :
  sectionIds cfg = first :: rest -> first <> [] ->
  activeId (spy_init cfg) = first /\ spy_inv cfg (spy_init cfg).
Proof.
  intros Hs Hf. unfold spy_inv, spy_init. simpl. rewrite Hs. simpl.
  unfold js_or. destruct first; [congruence|]. simpl. auto.
Qed.

Lemma spy_inv_step (cfg : spy_config) (s : spy) (ev : spy_event) :
  spy_inv cfg s -> event_ok s ev -> spy_inv cfg (spy_step cfg s ev).
Proof.
  intros [Ha Hi] Hok. destruct ev as [doc y | entries | doc y | ]; simpl.
  - unfold spyEffect. destruct (knownIds cfg) as [|k ks] eqn:Ek.
    + split; simpl; auto.
    + destruct (hasIntersectionObserver cfg).
      * split; cbn [installed activeId]; [exact Ha|].
        intros t Ht. apply filter_In in Ht as [Ht _].
        apply knownIds_sub. now rewrite Ek.
      * split.
        -- rewrite setActiveId_active. simpl.
           destruct (onScroll_cases (k :: ks) (latestActive s) doc y)
             as [[-> _] | [-> _]]; simpl; [|exact Ha].
           apply knownIds_sub. rewrite Ek. apply scrollCurrent_In. discriminate.
        -- rewrite setActiveId_installed. simpl. rewrite Ek. discriminate.
  - destruct (installed s) as [|targets|] eqn:Es; unfold spy_inv;
      rewrite ?Es; try (split; assumption).
    rewrite setActiveId_installed, setActiveId_active, Es. split; [|exact Hi].
    destruct (observerCallback_cases (latestActive s) entries)
      as [[_ ->] | (v & rest & Hv & [[-> _] | [-> _]])]; simpl; try exact Ha.
    apply visibleSections_head in Hv as [(e & He & _ & ->) _]. simpl.
    unfold event_ok in Hok. rewrite Es in Hok.
    rewrite Forall_forall in Hok. apply Hi, Hok. now apply list_elem_of_In.
  - destruct (installed s) eqn:Es; unfold spy_inv; rewrite ?Es;
      try (split; assumption).
    rewrite setActiveId_installed, setActiveId_active, Es. split; [|exact Hi].
    destruct (onScroll_cases (knownIds cfg) (latestActive s) doc y)
      as [[-> _] | [-> _]]; simpl; [|exact Ha].
    apply knownIds_sub, scrollCurrent_In. exact Hi.
  - split; [exact Ha | exact Hi].
Qed.

Lemma reachable_inv (cfg : spy_config) (first : jsstring) (rest : list jsstring) :
  sectionIds cfg = first :: rest -> first <> [] ->
  forall s, reachable cfg s -> spy_inv cfg s.
Proof.
  intros Hs Hf s Hr. induction Hr as [|s ev Hr IH Hok].
  - now apply (spy_inv_init cfg first rest).
  - now apply spy_inv_step.
Qed.

End ScrollSpy.

Section ScrollSpyProperties.

(** C4, as stated, fails: for the non-empty list ["", "about"] the hook
    starts with [activeId = "home"], which is neither the first id of the
    list nor a member of it. *)
Lemma activeId_rule_as_specified_fails :
  ~ activeId_rule_as_specified blankFirstConfig.
Proof.
  intros H. destruct H as [Hhead _]; [discriminate|].
  vm_compute in Hhead. discriminate.
Qed.

(** C4, amended. For every list of section ids whose first id is a
    non-empty string, on either resolution path, [activeId] equals the first
    id before any event has arrived and is a member of the list in every
    reachable state, that is after any sequence of mounts, intersection
    deliveries, scroll events and commits. *)
Theorem activeId_is_known (cfg : spy_config) (first : jsstring)
    (rest : list jsstring) :
  sectionIds cfg = first :: rest -> first <> [] ->
  activeId (spy_init cfg) = first /\
  forall s, reachable cfg s -> In (activeId s) (sectionIds cfg).
Proof.
  intros Hs Hf. split.
  - now apply (spy_inv_init cfg first rest).
  - intros s Hr. now apply (reachable_inv cfg first rest Hs Hf s Hr).
Qed.

Lemma activeId_is_known_witness :
  activeId (spy_init observerConfig) = lit "home" /\
  In (activeId
        (spy_step observerConfig
           (spy_step observerConfig (spy_init observerConfig) (Mount pageDoc 0))
           (Intersection tiedEntries)))
     pageIds.
Proof.
  assert (Hs : sectionIds observerConfig = lit "home" :: tl pageIds) by reflexivity.
  assert (Hf : lit "home" <> []) by (vm_compute; discriminate).
  destruct (activeId_is_known observerConfig _ _ Hs Hf) as [H0 Hall].
  split; [exact H0|]. apply Hall.
  apply reach_step; [apply reach_step; [apply reach_init | exact I]|].
  vm_compute.
  repeat match goal with
         | |- Forall _ (_ :: _) =>
             constructor; [cbn; repeat (first [left; reflexivity | right])|]
         end.
  constructor.
Defined.

(** C5. When the observer delivers entries of which at least one is
    intersecting, the selected section is one of the intersecting entries,
    no intersecting entry has a larger intersection ratio, and no
    intersecting entry with the same ratio has a top edge nearer to the top
    of the viewport; with the ref up to date the selected id becomes
    [activeId]. *)
Theorem observer_selects_best (cfg : spy_config) (s : spy)
    (entries : list (IntersectionObserverEntry jsstring))
    (targets : list jsstring) (v : visible_section) (rest : list visible_section) :
  installed s = Observer targets ->
  visibleSections entries = v :: rest ->
  selected cfg s (Intersection entries) = Some (id v) /\
  (latestActive s = activeId s ->
   activeId (spy_step cfg s (Intersection entries)) = id v) /\
  (exists e, In e entries /\ isIntersecting e = true /\ v = toVisible e) /\
  (forall e, In e entries -> isIntersecting e = true ->
     (intersectionRatio e <= ratio v)%Q /\
     ((intersectionRatio e == ratio v)%Q ->
      (Qabs (top v) <= Qabs (boundingTop e))%Q)).
Proof.
  intros Hobs Hv. destruct (visibleSections_head entries v rest Hv) as [Hex Hbest].
  split; [|split; [|split]].
  - simpl. rewrite Hobs, Hv. reflexivity.
  - intros Hsync. simpl. rewrite Hobs, setActiveId_active.
    unfold observerCallback. rewrite Hv. case_bool_decide as Hne; [reflexivity|].
    simpl. destruct (decide (id v = latestActive s)) as [->|]; [|tauto].
    now symmetry.
  - exact Hex.
  - intros e He Hi. specialize (Hbest e He Hi). unfold outranks in Hbest.
    simpl in Hbest. split.
    + destruct Hbest as [H | [H _]]; lra.
    + intros Heq. destruct Hbest as [H | [_ H]]; [lra | exact H].
Qed.

Lemma observer_selects_best_witness :
  activeId
    (spy_step observerConfig
       (spy_step observerConfig (spy_init observerConfig) (Mount pageDoc 0))
       (Intersection tiedEntries))
  = lit "work".
Proof.
  refine (proj1 (proj2
    (observer_selects_best observerConfig
       (spy_step observerConfig (spy_init observerConfig) (Mount pageDoc 0))
       tiedEntries pageIds
       (mkVisible (lit "work") (1 # 2) (120 # 1))
       [mkVisible (lit "about") (1 # 2) (-(300 # 1))] _ _)) _);
    vm_compute; reflexivity.
Defined.

(** C6, as stated, fails, in two ways. With the list ["", "about"] and the
    only section below the scroll position, no section qualifies, and the
    listener keeps "about" active, not the first id of the list (the empty
    string), although the ref is up to date. And on the page's own list, in
    the reachable state where the section selected at mount ("about") is not
    yet stored in the ref, a scroll back to the top selects "home", which
    the ref still holds, so no update is made and "about" stays active. *)
Lemma fallback_rule_as_specified_fails :
  ~ fallback_rule_as_specified blankFirstConfig blankFirstListening blankFirstDoc 0 /\
  reachable fallbackConfig staleListening /\
  ~ fallback_rule_on_every_event fallbackConfig staleListening pageDoc 0.
Proof.
  split; [|split].
  - intros H. specialize (H eq_refl eq_refl). vm_compute in H. discriminate.
  - apply reach_step; [apply reach_init | exact I].
  - intros H. specialize (H eq_refl). vm_compute in H. discriminate.
Qed.

Lemma qualifies_spec (doc : document) (scrollY : Q) (id : jsstring) :
  qualifies doc scrollY id = true
  <-> exists offsetTop, getElementById doc id = Some offsetTop /\
        (inject_Z offsetTop <= double_add scrollY 96)%Q.
Proof.
  unfold qualifies. destruct (getElementById doc id) as [off|].
  - rewrite Qle_bool_iff. split; [eauto|]. now intros (o & [= <-] & H).
  - split; [discriminate|]. now intros (o & [=] & _).
Qed.

Lemma knownIds_hd (cfg : spy_config) (pre : list jsstring) (first : jsstring)
    (rest : list jsstring) :
  sectionIds cfg = pre ++ first :: rest ->
  Forall (fun i => i = []) pre -> first <> [] ->
  hd [] (knownIds cfg) = first.
Proof.
  intros Hs Hpre Hf. unfold knownIds. rewrite Hs. clear Hs.
  induction Hpre as [|p pre -> _ IH]; simpl.
  - destruct first; [congruence | reflexivity].
  - exact IH.
Qed.

Lemma round64_comp (x y : Q) : (x == y)%Q -> (round64 x == round64 y)%Q.
Proof.
  intros H. apply Qle_antisym; apply round64_mono; rewrite H; apply Qle_refl.
Qed.

(** The sum of two integers is exact when it is below [2^53] in size. *)
Lemma double_add_exact (a b : Z) :
  (Z.abs (a + b) < 2 ^ 53)%Z ->
  (double_add (inject_Z a) (inject_Z b) == inject_Z (a + b))%Q.
Proof.
  intros Hab. unfold double_add. rewrite <- inject_Z_plus.
  set (z := (a + b)%Z) in *. unfold round64.
  destruct (Qcompare_spec (inject_Z z) 0) as [H|H|H].
  - now rewrite H.
  - change 0%Q with (inject_Z 0) in H. rewrite <- Zlt_Qlt in H.
    assert (Hz : (inject_Z z == - (inject_Z (- z) * pow2 0))%Q)
      by (rewrite inject_Z_opp; unfold pow2; simpl; ring).
    rewrite Hz at 2. apply Qopp_comp.
    rewrite <- (round64_pos_representable (- z) 0) by lia.
    unfold round64_pos.
    assert (He : (- inject_Z z == inject_Z (- z) * pow2 0)%Q)
      by (rewrite inject_Z_opp; unfold pow2; simpl; ring).
    pose proof (round64_comp (- inject_Z z) (inject_Z (- z) * pow2 0) He) as Hr.
    unfold round64 in Hr.
    assert (Hp : (0 < - inject_Z z)%Q).
    { rewrite <- inject_Z_opp. change 0%Q with (inject_Z 0). rewrite <- Zlt_Qlt. lia. }
    destruct (Qcompare_spec (- inject_Z z) 0) as [H1|H1|H1]; try (exfalso; lra).
    destruct (Qcompare_spec (inject_Z (- z) * pow2 0) 0) as [H2|H2|H2];
      try (exfalso; rewrite <- He in H2; lra).
    exact Hr.
  - change 0%Q with (inject_Z 0) in H. rewrite <- Zlt_Qlt in H.
    assert (He : (inject_Z z == inject_Z z * pow2 0)%Q)
      by (unfold pow2; simpl; ring).
    rewrite He at 2. rewrite <- (round64_pos_representable z 0) by lia.
    pose proof (round64_comp (inject_Z z) (inject_Z z * pow2 0) He) as Hr.
    unfold round64 in Hr.
    assert (Hp : (0 < inject_Z z)%Q).
    { change 0%Q with (inject_Z 0). rewrite <- Zlt_Qlt. lia. }
    destruct (Qcompare_spec (inject_Z z) 0) as [H1|H1|H1]; try (exfalso; lra).
    destruct (Qcompare_spec (inject_Z z * pow2 0) 0) as [H2|H2|H2];
      try (exfalso; rewrite <- He in H2; lra).
    exact Hr.
Qed.

(** The sum is the rounded one: just under 1, plus 96, is 97, and a section
    whose top offset is 97 is then selected. *)
Lemma rounded_sum_reaches_offset :
  (double_add justUnderOne 96 == 97)%Q /\
  scrollCurrent [lit "home"; lit "about"] boundaryDoc justUnderOne = lit "about".
Proof. split; vm_compute; reflexivity. Qed.

(** C6, amended. On the fallback path the scroll handler, which also runs
    once when the effect installs the listener, computes the scroll position
    plus 96 (a sum of doubles) and selects the last section in list order
    whose element exists and has a top offset at most that value; an id
    without an element never qualifies. When no section qualifies it selects
    the first non-empty section id. The selected section is made active
    unless it equals the section held by the ref, in which case [activeId]
    is left as it is; so whenever the ref holds [activeId] the selected
    section is the active one after the event. *)
Theorem fallback_selects_last (cfg : spy_config) (s : spy)
    (doc : document) (scrollY : Q) :
  scrollCurrent (knownIds cfg) doc scrollY
  = List.last (List.filter (qualifies doc scrollY) (sectionIds cfg))
      (hd [] (knownIds cfg)) /\
  (forall id, qualifies doc scrollY id = true
     <-> exists offsetTop, getElementById doc id = Some offsetTop /\
           (inject_Z offsetTop <= double_add scrollY 96)%Q) /\
  (forall pre first rest,
     sectionIds cfg = pre ++ first :: rest ->
     Forall (fun i => i = []) pre -> first <> [] ->
     hd [] (knownIds cfg) = first) /\
  (installed s = ScrollListener ->
   selected cfg s (Scroll doc scrollY)
   = Some (scrollCurrent (knownIds cfg) doc scrollY) /\
   activeId (spy_step cfg s (Scroll doc scrollY))
   = (if decide (scrollCurrent (knownIds cfg) doc scrollY = latestActive s)
      then activeId s
      else scrollCurrent (knownIds cfg) doc scrollY) /\
   (latestActive s = activeId s ->
    activeId (spy_step cfg s (Scroll doc scrollY))
    = scrollCurrent (knownIds cfg) doc scrollY)) /\
  (hasIntersectionObserver cfg = false -> knownIds cfg <> [] ->
   installed (spy_step cfg s (Mount doc scrollY)) = ScrollListener /\
   selected cfg s (Mount doc scrollY)
   = Some (scrollCurrent (knownIds cfg) doc scrollY) /\
   activeId (spy_step cfg s (Mount doc scrollY))
   = (if decide (scrollCurrent (knownIds cfg) doc scrollY = latestActive s)
      then activeId s
      else scrollCurrent (knownIds cfg) doc scrollY) /\
   (latestActive s = activeId s ->
    activeId (spy_step cfg s (Mount doc scrollY))
    = scrollCurrent (knownIds cfg) doc scrollY)).
Proof.
  split; [apply scrollCurrent_last|].
  split; [intros i; apply qualifies_spec|].
  split; [apply knownIds_hd|].
  split.
  - intros Hl. simpl. rewrite Hl. split; [reflexivity|].
    rewrite setActiveId_active.
    destruct (onScroll_cases (knownIds cfg) (latestActive s) doc scrollY)
      as [[-> Hne] | [-> Hc]]; simpl;
      destruct (decide (scrollCurrent (knownIds cfg) doc scrollY = latestActive s));
      split; congruence.
  - intros Hio Hne. simpl. unfold spyEffect.
    destruct (knownIds cfg) as [|k ks] eqn:Ek; [congruence|]. rewrite Hio.
    rewrite setActiveId_installed, setActiveId_active. simpl.
    split; [reflexivity|]. split; [reflexivity|].
    destruct (onScroll_cases (k :: ks) (latestActive s) doc scrollY)
      as [[-> Hn] | [-> Hc]]; simpl;
      destruct (decide (scrollCurrent (k :: ks) doc scrollY = latestActive s));
      split; congruence.
Qed.

Lemma fallback_selects_last_witness :
  activeId (spy_step fallbackConfig fallbackListening (Scroll pageDoc (1700 # 1)))
  = lit "work".
Proof.
  destruct (fallback_selects_last fallbackConfig fallbackListening pageDoc (1700 # 1))
    as (_ & _ & _ & Hscroll & _).
  destruct (Hscroll eq_refl) as (_ & _ & Hact).
  rewrite (Hact eq_refl). vm_compute. reflexivity.
Defined.

(** C9. On both paths, when the id that an event selects is the one that
    is already active, the event leaves [activeId] and the ref as they
    were; for an intersection delivery and for a scroll event the whole
    state is unchanged, and with the ref up to date the handler does not
    call [setActiveId] at all. *)
Theorem reselection_is_idempotent (cfg : spy_config) (s : spy) (ev : spy_event) :
  selected cfg s ev = Some (activeId s) ->
  activeId (spy_step cfg s ev) = activeId s /\
  latestActive (spy_step cfg s ev) = latestActive s /\
  match ev with
  | Mount _ _ => True
  | _ => spy_step cfg s ev = s
  end /\
  (latestActive s = activeId s -> emits cfg s ev = false).
Proof.
  assert (Hnone : bool_decide (is_Some (@None jsstring)) = false).
  { apply bool_decide_eq_false. intros [x Hx]. discriminate. }
  destruct s as [a l i]. destruct ev as [doc y | entries | doc y | ]; simpl.
  - unfold spyEffect. destruct (knownIds cfg) as [|k ks]; [discriminate|].
    destruct (hasIntersectionObserver cfg); [discriminate|].
    intros [= Hsel]. subst a. simpl.
    destruct (onScroll_cases (k :: ks) l doc y) as [[-> Hne] | [-> Heq]]; simpl;
      repeat split; congruence.
  - destruct i as [|targets|]; try discriminate. simpl.
    destruct (observerCallback_cases l entries)
      as [[-> _] | (v & rest & -> & [[-> Hne] | [-> Heq]])]; simpl;
      [discriminate | |]; intros [= Hsel]; subst a;
      repeat split; congruence.
  - destruct i as [|targets|]; try discriminate. simpl.
    intros [= Hsel]. subst a.
    destruct (onScroll_cases (knownIds cfg) l doc y) as [[-> Hne] | [-> Heq]];
      simpl; repeat split; congruence.
  - discriminate.
Qed.

Lemma reselection_is_idempotent_witness :
  spy_step fallbackConfig fallbackListening (Scroll pageDoc (100 # 1))
  = fallbackListening /\
  emits fallbackConfig fallbackListening (Scroll pageDoc (100 # 1)) = false.
Proof.
  assert (Hsel : selected fallbackConfig fallbackListening (Scroll pageDoc (100 # 1))
                 = Some (activeId fallbackListening)) by (vm_compute; reflexivity).
  destruct (reselection_is_idempotent _ _ _ Hsel) as (_ & _ & Hsame & Hemit).
  split; [exact Hsame | apply Hemit; vm_compute; reflexivity].
Defined.

Lemma spy_step_idle (hasIO : bool) (ev : spy_event) :
  spy_step (mkConfig [] hasIO) (mkSpy (lit "home") (lit "home") NoSubscription) ev
  = mkSpy (lit "home") (lit "home") NoSubscription.
Proof. destruct ev; reflexivity. Qed.

(** C10. With the empty list of section ids, [activeId] starts as "home";
    the effect installs neither an observer nor a scroll listener, so every
    event leaves the state as it is and [activeId] stays "home", which is
    not a member of the (empty) list of known ids. *)
Theorem empty_list_stays_home (hasIO : bool) (evs : list spy_event) :
  activeId (spy_init (mkConfig [] hasIO)) = lit "home" /\
  spy_run (mkConfig [] hasIO) (spy_init (mkConfig [] hasIO)) evs
  = mkSpy (lit "home") (lit "home") NoSubscription /\
  ~ In (activeId (spy_run (mkConfig [] hasIO) (spy_init (mkConfig [] hasIO)) evs))
      (sectionIds (mkConfig [] hasIO)).
Proof.
  assert (Hrun : spy_run (mkConfig [] hasIO) (spy_init (mkConfig [] hasIO)) evs
                 = mkSpy (lit "home") (lit "home") NoSubscription).
  { unfold spy_run, spy_init. simpl.
    induction evs as [|ev evs IH]; [reflexivity|].
    simpl. rewrite spy_step_idle. exact IH. }
  split; [reflexivity|]. split; [exact Hrun|]. simpl. tauto.
Qed.

End ScrollSpyProperties.

(** ** Reveal controller *)

Section Reveal.

Lemma revealEntry_mono (s : reveal) (entry : IntersectionObserverEntry element) :
  revealed s ⊆ revealed (revealEntry s entry).
Proof. unfold revealEntry. destruct (isIntersecting entry); simpl; set_solver. Qed.

Lemma revealEntry_observer (s : reveal) (entry : IntersectionObserverEntry element) :
  match observer s, observer (revealEntry s entry) with
  | Some obs, Some obs' => obs' ⊆ obs
  | None, None => True
  | _, _ => False
  end.
Proof.
  unfold revealEntry. destruct (isIntersecting entry), (observer s); simpl;
    auto; set_solver.
Qed.

Lemma revealEntry_retires (s : reveal) (entry : IntersectionObserverEntry element) :
  isIntersecting entry = true ->
  target entry ∈ revealed (revealEntry s entry) /\
  forall obs', observer (revealEntry s entry) = Some obs' -> target entry ∉ obs'.
Proof.
  intros Hi. unfold revealEntry. rewrite Hi. simpl. split; [set_solver|].
  intros obs' H. destruct (observer s); simpl in H; [|discriminate].
  injection H as <-. set_solver.
Qed.

Lemma callback_mono (entries : list (IntersectionObserverEntry element)) :
  forall s, revealed s ⊆ revealed (fold_left revealEntry entries s).
Proof.
  induction entries as [|e l IH]; intros s; simpl; [reflexivity|].
  etransitivity; [apply (revealEntry_mono s e) | apply IH].
Qed.

Lemma callback_observer (entries : list (IntersectionObserverEntry element)) :
  forall s obs, observer s = Some obs ->
    exists obs', observer (fold_left revealEntry entries s) = Some obs' /\ obs' ⊆ obs.
Proof.
  induction entries as [|e l IH]; intros s obs Hs; simpl.
  - exists obs. split; [exact Hs | reflexivity].
  - pose proof (revealEntry_observer s e) as H. rewrite Hs in H.
    destruct (observer (revealEntry s e)) as [o1|] eqn:E1; [|destruct H].
    destruct (IH _ _ E1) as (o2 & Ho2 & Hsub). exists o2. split; [exact Ho2|].
    set_solver.
Qed.

Lemma callback_retires (entries : list (IntersectionObserverEntry element)) :
  forall s obs entry,
    observer s = Some obs -> In entry entries -> isIntersecting entry = true ->
    target entry ∈ revealed (fold_left revealEntry entries s) /\
    exists obs', observer (fold_left revealEntry entries s) = Some obs' /\
                 target entry ∉ obs' /\ obs' ⊆ obs.
Proof.
  induction entries as [|e l IH]; intros s obs entry Hs Hin Hi; [destruct Hin|].
  simpl. pose proof (revealEntry_observer s e) as Hobs. rewrite Hs in Hobs.
  destruct (observer (revealEntry s e)) as [o1|] eqn:E1; [|destruct Hobs].
  destruct Hin as [->|Hin].
  - destruct (revealEntry_retires s entry Hi) as [Hr Hn].
    destruct (callback_observer l _ _ E1) as (o2 & Ho2 & Hsub).
    split; [apply (callback_mono l), Hr|].
    exists o2. split; [exact Ho2|]. specialize (Hn _ E1). set_solver.
  - destruct (IH _ _ entry E1 Hin Hi) as (Hr & o2 & Ho2 & Hn & Hsub).
    split; [exact Hr|]. exists o2. split; [exact Ho2|]. set_solver.
Qed.

Lemma revealEffect_mono (reducedMotion hasIO : bool) (elements : list element)
    (s : reveal) :
  revealed s ⊆ revealed (revealEffect reducedMotion hasIO elements s).
Proof.
  unfold revealEffect, revealAll.
  destruct elements, reducedMotion, hasIO; simpl; set_solver.
Qed.

Lemma reveal_step_mono (s : reveal) (ev : reveal_event) :
  revealed s ⊆ revealed (reveal_step s ev).
Proof.
  destruct ev as [rm io els | entries]; simpl.
  - apply revealEffect_mono.
  - destruct (observer s); [apply callback_mono | reflexivity].
Qed.

Lemma reveal_run_mono (evs : list reveal_event) :
  forall s, revealed s ⊆ revealed (reveal_run s evs).
Proof.
  induction evs as [|ev evs IH]; intros s; [reflexivity|].
  change (reveal_run s (ev :: evs)) with (reveal_run (reveal_step s ev) evs).
  etransitivity; [apply reveal_step_mono | apply IH].
Qed.

Lemma reveal_trace_cons (s : reveal) (evs : list reveal_event) :
  exists rest, reveal_trace s evs = s :: rest.
Proof. destruct evs; simpl; eauto. Qed.

Lemma transitions_step (x : element) (s : reveal) (ev : reveal_event)
    (evs : list reveal_event) :
  transitions x (reveal_trace s (ev :: evs))
  = ((if bool_decide ((x ∉ revealed s) ∧ (x ∈ revealed (reveal_step s ev)))
      then 1 else 0)
     + transitions x (reveal_trace (reveal_step s ev) evs))%nat.
Proof.
  simpl. destruct (reveal_trace_cons (reveal_step s ev) evs) as [rest ->].
  reflexivity.
Qed.

Lemma reversals_step (x : element) (s : reveal) (ev : reveal_event)
    (evs : list reveal_event) :
  reversals x (reveal_trace s (ev :: evs))
  = ((if bool_decide ((x ∈ revealed s) ∧ (x ∉ revealed (reveal_step s ev)))
      then 1 else 0)
     + reversals x (reveal_trace (reveal_step s ev) evs))%nat.
Proof.
  simpl. destruct (reveal_trace_cons (reveal_step s ev) evs) as [rest ->].
  reflexivity.
Qed.

Lemma reversals_none (x : element) (evs : list reveal_event) :
  forall s, reversals x (reveal_trace s evs) = 0%nat.
Proof.
  induction evs as [|ev evs IH]; intros s; [reflexivity|].
  rewrite reversals_step, IH. case_bool_decide as H; [|reflexivity].
  destruct H as [Hin Hout]. exfalso. apply Hout.
  now apply (reveal_step_mono s ev).
Qed.

Lemma transitions_revealed (x : element) (evs : list reveal_event) :
  forall s, x ∈ revealed s -> transitions x (reveal_trace s evs) = 0%nat.
Proof.
  induction evs as [|ev evs IH]; intros s Hx; [reflexivity|].
  rewrite transitions_step, IH by now apply (reveal_step_mono s ev).
  case_bool_decide as H; [tauto | reflexivity].
Qed.

Lemma transitions_once (x : element) (evs : list reveal_event) :
  forall s, (transitions x (reveal_trace s evs) <= 1)%nat.
Proof.
  induction evs as [|ev evs IH]; intros s; [simpl; lia|].
  rewrite transitions_step. case_bool_decide as H.
  - destruct H as [_ Hin]. rewrite (transitions_revealed x evs _ Hin). lia.
  - specialize (IH (reveal_step s ev)). lia.
Qed.

(** C7. No event of the controller removes an element from the revealed
    set, so a revealed element stays revealed along every run, also when
    later entries report it as not intersecting. An element that a callback
    reveals is, right after, no longer observed by that observer. Hence
    along any run an element goes from hidden to revealed at most once and
    never back. *)
Theorem reveal_is_monotonic (s : reveal) (evs : list reveal_event) (x : element) :
  (forall ev, revealed s ⊆ revealed (reveal_step s ev)) /\
  revealed s ⊆ revealed (reveal_run s evs) /\
  (forall entry, isIntersecting entry = true ->
     target entry ∈ revealed (revealEntry s entry) /\
     forall obs', observer (revealEntry s entry) = Some obs' -> target entry ∉ obs') /\
  (forall entries obs entry,
     observer s = Some obs -> In entry entries -> isIntersecting entry = true ->
     target entry ∈ revealed (reveal_step s (Intersect entries)) /\
     exists obs', observer (reveal_step s (Intersect entries)) = Some obs' /\
                  target entry ∉ obs' /\ obs' ⊆ obs) /\
  reversals x (reveal_trace s evs) = 0%nat /\
  (transitions x (reveal_trace s evs) <= 1)%nat.
Proof.
  split; [apply reveal_step_mono|].
  split; [apply reveal_run_mono|].
  split; [apply revealEntry_retires|].
  split.
  - intros entries obs entry Hs Hin Hi. simpl. rewrite Hs.
    now apply callback_retires.
  - split; [apply reversals_none | apply transitions_once].
Qed.

Lemma reveal_is_monotonic_witness :
  1 ∈ revealed (reveal_step revealObserving (Intersect firstSeen)) /\
  exists obs', observer (reveal_step revealObserving (Intersect firstSeen)) = Some obs'
               /\ 1 ∉ obs' /\ obs' ⊆ list_to_set [1; 2].
Proof.
  destruct (reveal_is_monotonic revealObserving [] 1) as (_ & _ & _ & H & _).
  apply (H firstSeen (list_to_set [1; 2]) (mkEntry 1 true (1 # 5) (400 # 1)));
    [reflexivity | simpl; auto | reflexivity].
Defined.

(** C8. When reduced motion is on, or when the browser has no
    IntersectionObserver, a run of the effect reveals every reveal-marked
    element it finds at once and installs no observer, so no intersection
    event is involved. *)
Theorem reveal_without_observer (reducedMotion hasIO : bool)
    (elements : list element) (s : reveal) (x : element) :
  reducedMotion = true \/ hasIO = false ->
  In x elements ->
  x ∈ revealed (reveal_step s (Run reducedMotion hasIO elements)) /\
  observer (reveal_step s (Run reducedMotion hasIO elements)) = None.
Proof.
  intros Hcap Hx. simpl. unfold revealEffect, revealAll.
  destruct elements as [|e els]; [destruct Hx|].
  assert (Hin : x ∈ (list_to_set (e :: els) : gset element)).
  { apply elem_of_list_to_set. now apply list_elem_of_In. }
  destruct reducedMotion; simpl.
  - split; [set_solver | reflexivity].
  - destruct Hcap as [?| ->]; [discriminate|]. simpl.
    split; [set_solver | reflexivity].
Qed.

Lemma reveal_without_observer_witness :
  2 ∈ revealed (reveal_step revealObserving (Run true true [1; 2])) /\
  observer (reveal_step revealObserving (Run true true [1; 2])) = None.
Proof.
  apply (reveal_without_observer true true [1; 2] revealObserving 2).
  - left. reflexivity.
  - simpl. auto.
Defined.

End Reveal.

(** * Further properties of the code *)

(** ** Validation and surrounding white space *)

Section ValidationPadding.

Lemma trimStart_app_ws (pre s : jsstring) :
  forallb isWhiteSpace pre = true -> trimStart (pre ++ s) = trimStart s.
Proof.
  induction pre as [|c pre IH]; simpl; [reflexivity|].
  intros H. apply andb_true_iff in H as [-> H]. now apply IH.
Qed.

Lemma trimStart_app_keep (s t : jsstring) :
  trimStart s <> [] -> trimStart (s ++ t) = trimStart s ++ t.
Proof.
  induction s as [|c s IH]; simpl; [congruence|].
  destruct (isWhiteSpace c); [exact IH | reflexivity].
Qed.

Lemma trimEnd_app_ws (s post : jsstring) :
  forallb isWhiteSpace post = true -> trimEnd (s ++ post) = trimEnd s.
Proof.
  intros H. unfold trimEnd. rewrite rev_app_distr, trimStart_app_ws; [reflexivity|].
  rewrite forallb_forall in *. intros c Hc. apply H. now apply in_rev.
Qed.

Lemma trim_padded (pre s post : jsstring) :
  forallb isWhiteSpace pre = true -> forallb isWhiteSpace post = true ->
  trim (pre ++ s ++ post) = trim s.
Proof.
  intros Hpre Hpost. unfold trim. rewrite trimStart_app_ws by exact Hpre.
  destruct (trimStart s) as [|c r] eqn:Es.
  - apply trimStart_nil in Es.
    assert (Hall : forallb isWhiteSpace (s ++ post) = true)
      by (rewrite forallb_app, Es, Hpost; reflexivity).
    apply trimStart_nil in Hall. rewrite Hall. reflexivity.
  - rewrite trimStart_app_keep by (rewrite Es; discriminate).
    rewrite Es. now apply trimEnd_app_ws.
Qed.

Lemma trim_idempotent (s : jsstring) : trim (trim s) = trim s.
Proof.
  destruct (trim_split s) as (pre & post & Hs & Hpre & Hpost & _).
  rewrite Hs at 2. symmetry. now apply trim_padded.
Qed.

Lemma validateContact_trims (v w : ContactFormValues) :
  trim (name v) = trim (name w) ->
  trim (email v) = trim (email w) ->
  trim (message v) = trim (message w) ->
  validateContact v = validateContact w.
Proof. intros Hn He Hm. unfold validateContact. now rewrite Hn, He, Hm. Qed.

(** X1. Validation does not see white space around a field: putting any
    white space before and after each of the three values gives the same
    errors object, and so does validating the trimmed values. *)
Theorem validation_ignores_padding (values before after : ContactFormValues) :
  (forall k, forallb isWhiteSpace (get_field k before) = true) ->
  (forall k, forallb isWhiteSpace (get_field k after) = true) ->
  validateContact
    (mkFields (name before ++ name values ++ name after)
       (email before ++ email values ++ email after)
       (message before ++ message values ++ message after))
  = validateContact values /\
  validateContact
    (mkFields (trim (name values)) (trim (email values)) (trim (message values)))
  = validateContact values.
Proof.
  intros Hb Ha. split.
  - apply validateContact_trims; simpl; apply trim_padded;
      first [ apply (Hb FName) | apply (Hb FEmail) | apply (Hb FMessage)
            | apply (Ha FName) | apply (Ha FEmail) | apply (Ha FMessage) ].
  - apply validateContact_trims; simpl; apply trim_idempotent.
Qed.

Lemma validation_ignores_padding_witness :
  validateContact
    (mkFields (lit "  " ++ lit "Ann" ++ [10%N])
       ([160%N] ++ lit "a@b.com" ++ lit " ")
       ([9%N] ++ lit "A message of twenty chars." ++ []))
  = validateContact
      (mkFields (lit "Ann") (lit "a@b.com") (lit "A message of twenty chars.")).
Proof.
  refine (proj1 (validation_ignores_padding
    (mkFields (lit "Ann") (lit "a@b.com") (lit "A message of twenty chars."))
    (mkFields (lit "  ") [160%N] [9%N])
    (mkFields [10%N] (lit " ") []) _ _)); intros []; reflexivity.
Defined.

(** X2. A field made only of white space counts as empty: each of the three
    "required" messages is reported exactly when every character of the
    field, as typed, is white space (the empty field included). *)
Theorem blank_fields_are_missing (values : ContactFormValues) :
  (validateContact values !! "name" = Some msg_name
   <-> forallb isWhiteSpace (name values) = true) /\
  (validateContact values !! "email" = Some msg_email_empty
   <-> forallb isWhiteSpace (email values) = true) /\
  (validateContact values !! "message" = Some msg_message_empty
   <-> forallb isWhiteSpace (message values) = true).
Proof.
  rewrite name_key_Some, email_key_empty, message_key_empty, !trim_nil. tauto.
Qed.

Lemma shape_part (l : jsstring) :
  Forall (fun c => notSpaceNorAt c = true) l ->
  count_occ N.eq_dec l 64%N = 0%nat /\
  forallb (fun c => negb (isWhiteSpace c)) l = true.
Proof.
  induction 1 as [|c l Hc _ [IHc IHw]]; [split; reflexivity|].
  unfold notSpaceNorAt in Hc. apply andb_true_iff in Hc as [Hw Ha].
  simpl. rewrite Hw, IHw. split; [|reflexivity].
  destruct (N.eq_dec c 64%N) as [->|_]; [discriminate | exact IHc].
Qed.

(** X3. An email that passes validation has, once trimmed, exactly one "@",
    no white space anywhere, at least five characters, something before the
    "@", and a "." that comes after the "@" with at least one character in
    between and at least one after it. *)
Theorem accepted_email_facts (values : ContactFormValues) :
  validateContact values !! "email" = None ->
  count_occ N.eq_dec (trim (email values)) 64%N = 1%nat /\
  forallb (fun c => negb (isWhiteSpace c)) (trim (email values)) = true /\
  (5 <= length (trim (email values)))%nat /\
  exists i j : nat,
    trim (email values) !! i = Some 64%N /\
    trim (email values) !! j = Some 46%N /\
    (0 < i)%nat /\ (i + 1 < j)%nat /\ (j + 1 < length (trim (email values)))%nat.
Proof.
  intros H. apply email_key_None in H.
  destruct H as (l & d & t & -> & Hl & Hd & Ht & Al & Ad & At).
  destruct (shape_part l Al) as [Cl Wl], (shape_part d Ad) as [Cd Wd],
           (shape_part t At) as [Ct Wt].
  assert (Ll : (0 < length l)%nat) by (destruct l; simpl; [congruence | lia]).
  assert (Ld : (0 < length d)%nat) by (destruct d; simpl; [congruence | lia]).
  assert (Lt : (0 < length t)%nat) by (destruct t; simpl; [congruence | lia]).
  split; [|split; [|split]].
  - rewrite count_occ_app. simpl. rewrite count_occ_app. simpl.
    destruct (N.eq_dec 64%N 64%N); [|congruence].
    destruct (N.eq_dec 46%N 64%N); [discriminate|]. lia.
  - rewrite forallb_app. simpl. rewrite forallb_app. simpl.
    now rewrite Wl, Wd, Wt.
  - rewrite length_app. simpl. rewrite length_app. simpl. lia.
  - exists (length l), (length l + 1 + length d)%nat.
    rewrite length_app. simpl. rewrite length_app. simpl.
    split; [|split; [|repeat split; lia]].
    + rewrite lookup_app_r by lia. now rewrite Nat.sub_diag.
    + rewrite lookup_app_r by lia.
      replace (length l + 1 + length d - length l)%nat with (S (length d)) by lia.
      simpl. rewrite lookup_app_r by lia. now rewrite Nat.sub_diag.
Qed.

Lemma accepted_email_facts_witness :
  count_occ N.eq_dec (trim (lit " a@b.com ")) 64%N = 1%nat.
Proof.
  refine (proj1 (accepted_email_facts
    (mkFields (lit "Ann") (lit " a@b.com ") (lit "short")) _)).
  vm_compute. reflexivity.
Defined.

End ValidationPadding.

(** ** The contact form as a whole *)

Section SessionRuns.

Lemma form_run_snoc (s : session) (evs : list form_event) (ev : form_event) :
  form_run s (evs ++ [ev]) = form_step (form_run s evs) ev.
Proof. unfold form_run. now rewrite fold_left_app. Qed.

Lemma emptyValues_invalid : isContactValid emptyValues = false.
Proof. vm_compute. reflexivity. Qed.

Lemma submitted_step (s : session) (ev : form_event) :
  (contactSubmitted s = true -> contactValues s = emptyValues) ->
  contactSubmitted (form_step s ev) = true ->
  contactValues (form_step s ev) = emptyValues.
Proof.
  intros Hinv. destruct ev as [k v | k | | ]; simpl; try discriminate.
  - exact Hinv.
  - unfold form_step, onContactSubmit.
    destruct (isContactValid (contactValues s)); simpl; [reflexivity | exact Hinv].
Qed.

Lemma submitted_run (evs : list form_event) :
  contactSubmitted (form_run initialSession evs) = true ->
  contactValues (form_run initialSession evs) = emptyValues.
Proof.
  induction evs as [|ev evs IH] using rev_ind; [discriminate|].
  rewrite form_run_snoc. now apply submitted_step.
Qed.

(** X4. Whatever the visitor does, starting from the first render, while
    the success state is on ([submitted]) the three values are empty, so the
    form is invalid and the submit button is disabled: a message cannot be
    sent twice. *)
Theorem submitted_form_is_empty (evs : list form_event) :
  contactSubmitted (form_run initialSession evs) = true ->
  contactValues (form_run initialSession evs) = emptyValues /\
  isContactValid (contactValues (form_run initialSession evs)) = false /\
  submitDisabled (form_run initialSession evs) = true.
Proof.
  intros H. apply submitted_run in H. unfold submitDisabled. rewrite H.
  rewrite emptyValues_invalid. auto.
Qed.

Lemma submitted_form_is_empty_witness :
  submitDisabled (form_run initialSession fillAndSend) = true.
Proof.
  refine (proj2 (proj2 (submitted_form_is_empty fillAndSend _))).
  vm_compute. reflexivity.
Defined.

(** X5. A submit attempt on an invalid form makes every error visible: the
    error shown under each input is exactly what [validateContact] reports
    for it, [aria-invalid] is set exactly on the failing inputs, and at
    least one input shows an error. *)
Theorem invalid_submit_shows_errors (s : session) :
  isContactValid (contactValues s) = false ->
  (forall k,
     shownError (form_step s Submit) k
     = validateContact (contactValues s) !! field_key k /\
     ariaInvalid (form_step s Submit) k
     = bool_decide (is_Some (validateContact (contactValues s) !! field_key k))) /\
  exists k, is_Some (shownError (form_step s Submit) k).
Proof.
  intros Hinv. rewrite (submit_invalid s Hinv).
  assert (Hall : forall k,
    shownError (mkSession (contactValues s) allTouched (contactSubmitted s)) k
    = validateContact (contactValues s) !! field_key k).
  { intros []; reflexivity. }
  split.
  - intros k. split; [apply Hall|]. destruct k; reflexivity.
  - destruct (validateContact (contactValues s) !! "name") eqn:En;
      [exists FName; rewrite Hall; simpl; rewrite En; eauto|].
    destruct (validateContact (contactValues s) !! "email") eqn:Ee;
      [exists FEmail; rewrite Hall; simpl; rewrite Ee; eauto|].
    destruct (validateContact (contactValues s) !! "message") eqn:Em;
      [exists FMessage; rewrite Hall; simpl; rewrite Em; eauto|].
    assert (He : validateContact (contactValues s) = ∅)
      by (apply validateContact_empty_iff; auto).
    apply valid_iff_empty in He. congruence.
Qed.

Lemma invalid_submit_shows_errors_witness :
  shownError (form_step initialSession Submit) FEmail = Some msg_email_empty.
Proof.
  destruct (invalid_submit_shows_errors initialSession) as [Hall _];
    [vm_compute; reflexivity|].
  rewrite (proj1 (Hall FEmail)). vm_compute. reflexivity.
Defined.

(** X6. Field changes compose as assignments: a second change of the same
    field overrides the first, changes of different fields can be made in
    either order, and a blur and a change can be swapped. *)
Theorem changes_compose (s : session) (k k' : field) (v v' : jsstring) :
  form_step (form_step s (Change k v)) (Change k v') = form_step s (Change k v') /\
  (k <> k' ->
   form_step (form_step s (Change k v)) (Change k' v')
   = form_step (form_step s (Change k' v')) (Change k v)) /\
  form_step (form_step s (Blur k)) (Change k' v)
  = form_step (form_step s (Change k' v)) (Blur k).
Proof.
  rewrite !change_step. destruct s as [[n e m] t b]. simpl.
  split; [destruct k; reflexivity|]. split.
  - intros Hne. destruct k, k'; try congruence; reflexivity.
  - reflexivity.
Qed.

Lemma changes_compose_witness :
  form_step (form_step initialSession (Change FName (lit "Ann")))
    (Change FEmail (lit "a@b.com"))
  = form_step (form_step initialSession (Change FEmail (lit "a@b.com")))
      (Change FName (lit "Ann")).
Proof.
  refine (proj1 (proj2 (changes_compose initialSession FName FEmail
                          (lit "Ann") (lit "a@b.com"))) _).
  discriminate.
Defined.

Lemma empty_field_message (k : field) :
  validateContact emptyValues !! field_key k = Some (requiredMessage k).
Proof. destruct k; vm_compute; reflexivity. Qed.

(** X7. Leaving a field while the success state is on does not end the
    success state, and shows the "required" message of that field next to
    it: [onContactBlur] marks the (emptied) field touched and does not reset
    [submitted]. *)
Theorem blur_after_success (evs : list form_event) (k : field) :
  contactSubmitted (form_run initialSession evs) = true ->
  contactSubmitted (form_step (form_run initialSession evs) (Blur k)) = true /\
  shownError (form_step (form_run initialSession evs) (Blur k)) k
  = Some (requiredMessage k) /\
  ariaInvalid (form_step (form_run initialSession evs) (Blur k)) k = true.
Proof.
  intros H. pose proof (submitted_run evs H) as Hv.
  destruct (form_run initialSession evs) as [vals t b]. simpl in *. subst.
  unfold shownError, ariaInvalid. simpl.
  rewrite get_set_field. destruct (decide (k = k)); [|congruence].
  rewrite empty_field_message. repeat split.
Qed.

Lemma blur_after_success_witness :
  shownError (form_step (form_run initialSession fillAndSend) (Blur FName)) FName
  = Some msg_name.
Proof.
  refine (proj1 (proj2 (blur_after_success fillAndSend FName _))).
  vm_compute. reflexivity.
Defined.

End SessionRuns.

(** ** More on the scroll spy *)

Section ScrollSpyMore.

Lemma selected_cases (cfg : spy_config) (s : spy) (ev : spy_event) (i : jsstring) :
  selected cfg s ev = Some i ->
  (i <> latestActive s /\ activeId (spy_step cfg s ev) = i /\
   emits cfg s ev = true) \/
  (i = latestActive s /\ activeId (spy_step cfg s ev) = activeId s /\
   emits cfg s ev = false).
Proof.
  assert (Hnone : bool_decide (is_Some (@None jsstring)) = false).
  { apply bool_decide_eq_false. intros [x Hx]. discriminate. }
  assert (Hsome : forall x : jsstring, bool_decide (is_Some (Some x)) = true).
  { intros x. apply bool_decide_eq_true. eauto. }
  destruct s as [a l inst]. destruct ev as [doc y | entries | doc y | ]; simpl.
  - unfold spyEffect. destruct (knownIds cfg) as [|k ks]; [discriminate|].
    destruct (hasIntersectionObserver cfg); [discriminate|].
    intros [= <-]. simpl. rewrite setActiveId_active. simpl.
    destruct (onScroll_cases (k :: ks) l doc y) as [[-> Hne] | [-> Heq]]; simpl;
      [left | right]; auto.
  - destruct inst as [|targets|]; try discriminate. simpl.
    rewrite setActiveId_active. simpl.
    destruct (observerCallback_cases l entries)
      as [[-> _] | (v & rest & -> & [[-> Hne] | [-> Heq]])]; simpl;
      [discriminate | |]; intros [= <-]; [left | right]; auto.
  - destruct inst as [|targets|]; try discriminate. simpl.
    intros [= <-]. rewrite setActiveId_active. simpl.
    destruct (onScroll_cases (knownIds cfg) l doc y) as [[-> Hne] | [-> Heq]];
      simpl; [left | right]; auto.
  - discriminate.
Qed.

(** X8. A delivery in which no entry is intersecting (an empty delivery
    included) selects nothing and leaves the state of the hook as it is: the
    active section is kept when every observed section has left the band. *)
Theorem nothing_visible_keeps_active (cfg : spy_config) (s : spy)
    (entries : list (IntersectionObserverEntry jsstring)) :
  (forall e, In e entries -> isIntersecting e = false) ->
  spy_step cfg s (Intersection entries) = s /\
  selected cfg s (Intersection entries) = None /\
  emits cfg s (Intersection entries) = false.
Proof.
  intros H. apply visibleSections_nil in H. simpl.
  unfold observerCallback. rewrite H.
  destruct (installed s); simpl; repeat split.
Qed.

Lemma nothing_visible_keeps_active_witness :
  spy_step observerConfig staleRef
    (Intersection [mkEntry (lit "work") false 0 (-(900 # 1))])
  = staleRef.
Proof.
  refine (proj1 (nothing_visible_keeps_active observerConfig staleRef
                   [mkEntry (lit "work") false 0 (-(900 # 1))] _)).
  intros e [<- | []]. reflexivity.
Defined.

(** X9. With the ref up to date, on both paths, an event that selects a
    section makes it the active one, and its handler calls [setActiveId]
    exactly when the selected section differs from the active one. *)
Theorem selection_becomes_active (cfg : spy_config) (s : spy) (ev : spy_event)
    (i : jsstring) :
  latestActive s = activeId s ->
  selected cfg s ev = Some i ->
  activeId (spy_step cfg s ev) = i /\
  (emits cfg s ev = true <-> i <> activeId s).
Proof.
  intros Hsync Hsel.
  destruct (selected_cases cfg s ev i Hsel) as [(Hne & Ha & He) | (Heq & Ha & He)];
    rewrite He, Ha.
  - split; [reflexivity|]. rewrite <- Hsync. tauto.
  - split; [congruence|]. split; [discriminate|]. congruence.
Qed.

Lemma selection_becomes_active_witness :
  activeId (spy_step fallbackConfig fallbackListening (Scroll pageDoc (2500 # 1)))
  = lit "contact".
Proof.
  refine (proj1 (selection_becomes_active fallbackConfig fallbackListening
                   (Scroll pageDoc (2500 # 1)) (lit "contact") _ _));
    vm_compute; reflexivity.
Defined.

(** X10. The handlers compare the selected section with the ref, not with
    the state. While the ref still holds the previous section, an event that
    selects that previous section is dropped: no [setActiveId] call is made
    and the section chosen by the earlier event stays active. *)
Theorem selection_equal_to_ref_is_dropped (cfg : spy_config) (s : spy)
    (ev : spy_event) :
  selected cfg s ev = Some (latestActive s) ->
  activeId (spy_step cfg s ev) = activeId s /\
  emits cfg s ev = false.
Proof.
  intros Hsel.
  destruct (selected_cases cfg s ev _ Hsel) as [(Hne & _) | (_ & Ha & He)];
    [congruence | auto].
Qed.

Lemma selection_equal_to_ref_is_dropped_witness :
  selected observerConfig staleRef (Intersection homeEntry) = Some (lit "home") /\
  activeId (spy_step observerConfig staleRef (Intersection homeEntry)) = lit "work".
Proof.
  split; [vm_compute; reflexivity|].
  rewrite (proj1 (selection_equal_to_ref_is_dropped observerConfig staleRef
                    (Intersection homeEntry) eq_refl)).
  vm_compute. reflexivity.
Defined.

End ScrollSpyMore.

Section SortMore.

Context {A : Type} (cmp : A -> A -> Q).

(** In the sorted array, nothing that stood before the first element in the
    input comes before it in the order: among equals the earliest wins. *)
Lemma array_sort_head_first (l : list A) (h : A) (rest : list A) :
  array_sort cmp l = h :: rest ->
  exists l1 l2, l = l1 ++ h :: l2 /\
    Forall (fun x => Qle_bool (cmp x h) 0 = false) l1.
Proof.
  revert h rest. induction l as [|x l IH]; intros h rest Hs; [discriminate|].
  simpl in Hs. destruct (array_sort cmp l) as [|z r] eqn:Hl.
  - apply array_sort_nil in Hl. subst l. injection Hs as <- _.
    exists [], []. split; [reflexivity | constructor].
  - destruct (IH z r eq_refl) as (l1 & l2 & -> & Hall). simpl in Hs.
    destruct (Qle_bool (cmp x z) 0) eqn:Hxz; injection Hs as <- _.
    + exists [], (l1 ++ z :: l2). split; [reflexivity | constructor].
    + exists (x :: l1), l2. split; [reflexivity | now constructor].
Qed.

End SortMore.

Section RankingMore.

Lemma StronglySorted_weaken {A : Type} (R S : A -> A -> Prop) (l : list A) :
  (forall x y, R x y -> S x y) -> StronglySorted R l -> StronglySorted S l.
Proof.
  intros HRS. induction 1 as [|x l Hl IH Hx]; constructor; [exact IH|].
  eapply Forall_impl; [exact Hx|]. intros y. apply HRS.
Qed.

(** X11. The array built by the observer callback holds exactly the
    intersecting entries of the delivery, each once, ordered best first:
    every element is ranked at least as high as all that follow it (a larger
    ratio, or the same ratio and a top edge at least as near). *)
Theorem visibleSections_ranked (entries : list (IntersectionObserverEntry jsstring)) :
  Permutation (map toVisible (List.filter isIntersecting entries))
    (visibleSections entries) /\
  StronglySorted outranks (visibleSections entries) /\
  length (visibleSections entries)
  = length (List.filter isIntersecting entries).
Proof.
  unfold visibleSections. split; [apply array_sort_perm|]. split.
  - apply (StronglySorted_weaken
             (fun x y => Qle_bool (compareVisible x y) 0 = true)).
    + intros x y. apply compareVisible_outranks.
    + apply array_sort_sorted.
      * intros x y. rewrite !compareVisible_outranks. apply outranks_total.
      * intros x y z. rewrite !compareVisible_outranks. apply outranks_trans.
  - rewrite <- (Permutation_length (array_sort_perm compareVisible _)).
    apply length_map.
Qed.

(** X12. When several intersecting entries are ranked first together (same
    ratio and same distance from the top), the one delivered first is
    selected: every intersecting entry that comes before the selected one in
    the delivery is ranked strictly lower. *)
Theorem first_delivered_wins_ties (entries : list (IntersectionObserverEntry jsstring))
    (v : visible_section) (rest : list visible_section) :
  visibleSections entries = v :: rest ->
  exists earlier later,
    map toVisible (List.filter isIntersecting entries) = earlier ++ v :: later /\
    forall w, In w earlier -> ~ outranks w v /\ outranks v w.
Proof.
  intros Hv. unfold visibleSections in Hv.
  destruct (array_sort_head_first compareVisible _ v rest Hv)
    as (l1 & l2 & Heq & Hall).
  exists l1, l2. split; [exact Heq|]. intros w Hw.
  rewrite Forall_forall in Hall. specialize (Hall w (proj2 (list_elem_of_In _ _) Hw)).
  assert (Hn : ~ outranks w v).
  { rewrite <- compareVisible_outranks. congruence. }
  split; [exact Hn|]. destruct (outranks_total v w); tauto.
Qed.

Lemma first_delivered_wins_ties_witness :
  exists earlier later,
    map toVisible (List.filter isIntersecting tiedEntries) = earlier ++
      mkVisible (lit "work") (1 # 2) (120 # 1) :: later /\
    forall w, In w earlier ->
      ~ outranks w (mkVisible (lit "work") (1 # 2) (120 # 1)) /\
      outranks (mkVisible (lit "work") (1 # 2) (120 # 1)) w.
Proof.
  apply (first_delivered_wins_ties tiedEntries
           (mkVisible (lit "work") (1 # 2) (120 # 1))
           [mkVisible (lit "about") (1 # 2) (-(300 # 1))]).
  vm_compute. reflexivity.
Defined.

End RankingMore.

Section ScrollSpyPaths.

(** X13. On the observer path the effect observes exactly the sections of
    the list that have a non-empty id and an element in the document, ids
    without an element being skipped, and it does not touch the active
    section (unlike the fallback, which selects at once). *)
Theorem observer_mount_observes_present (cfg : spy_config) (doc : document)
    (scrollY : Q) (s : spy) :
  hasIntersectionObserver cfg = true -> knownIds cfg <> [] ->
  activeId (spy_step cfg s (Mount doc scrollY)) = activeId s /\
  latestActive (spy_step cfg s (Mount doc scrollY)) = latestActive s /\
  exists targets,
    installed (spy_step cfg s (Mount doc scrollY)) = Observer targets /\
    forall t, In t targets <-> In t (sectionIds cfg) /\ t <> [] /\ is_Some (doc !! t).
Proof.
  intros Hio Hne. simpl. unfold spyEffect.
  destruct (knownIds cfg) as [|k ks] eqn:Ek; [congruence|]. rewrite Hio.
  cbn [activeId latestActive installed]. split; [reflexivity|].
  split; [reflexivity|]. eexists. split; [reflexivity|].
  intros t. rewrite filter_In, <- Ek. unfold knownIds. rewrite filter_In.
  rewrite bool_decide_eq_true, truthy_true. unfold getElementById.
  destruct (truthy t) eqn:Et.
  - apply truthy_true in Et. tauto.
  - split; [intros [_ [x Hx]]; discriminate|].
    apply truthy_false in Et. tauto.
Qed.

Lemma observer_mount_observes_present_witness :
  activeId (spy_step observerConfig (spy_init observerConfig)
              (Mount {[ lit "work" := 1600%Z ]} 0))
  = lit "home".
Proof.
  refine (proj1 (observer_mount_observes_present observerConfig
                   {[ lit "work" := 1600%Z ]} 0 (spy_init observerConfig) _ _)).
  - reflexivity.
  - vm_compute. discriminate.
Defined.

(** X14. For the four sections of the page, in every reachable state of
    the scroll spy, on either path, exactly one navigation link is marked
    active, and it is the link of the active section. *)
Theorem one_link_is_active (hasIO : bool) (s : spy) :
  reachable (mkConfig sectionIdsOfPage hasIO) s ->
  exists label, activeLinks (activeId s) = [(activeId s, label)].
Proof.
  intros Hr.
  assert (Hf : lit "home" <> []) by (vm_compute; discriminate).
  destruct (reachable_inv (mkConfig sectionIdsOfPage hasIO) (lit "home")
              (tl sectionIdsOfPage) eq_refl Hf s Hr) as [Hin _].
  simpl in Hin. destruct Hin as [<- | [<- | [<- | [<- | []]]]];
    eexists; vm_compute; reflexivity.
Qed.

Lemma one_link_is_active_witness :
  exists label,
    activeLinks (activeId (spy_step (mkConfig sectionIdsOfPage false)
                             (spy_init (mkConfig sectionIdsOfPage false))
                             (Mount pageDoc (900 # 1))))
    = [(activeId (spy_step (mkConfig sectionIdsOfPage false)
                    (spy_init (mkConfig sectionIdsOfPage false))
                    (Mount pageDoc (900 # 1))), label)].
Proof.
  apply (one_link_is_active false).
  apply reach_step; [apply reach_init | exact I].
Defined.

Lemma qualifies_mono (doc : document) (y y' : Q) (i : jsstring) :
  (y <= y')%Q -> qualifies doc y i = true -> qualifies doc y' i = true.
Proof.
  intros Hy. unfold qualifies. destruct (getElementById doc i); [|discriminate].
  rewrite !Qle_bool_iff. intros H. eapply Qle_trans; [exact H|].
  apply round64_mono. unfold headerOffset. lra.
Qed.

Lemma last_filter_snoc {A : Type} (q : A -> bool) (l : list A) (x : A) :
  l <> [] ->
  List.last (List.filter q (l ++ [x])) (hd x (l ++ [x]))
  = if q x then x else List.last (List.filter q l) (hd x l).
Proof.
  intros Hl. rewrite List.filter_app. simpl.
  replace (hd x (l ++ [x])) with (hd x l) by (destruct l; [congruence | reflexivity]).
  destruct (q x); [apply List.last_last | now rewrite app_nil_r].
Qed.

Lemma hd_default_irrelevant {A : Type} (d d' : A) (l : list A) :
  l <> [] -> hd d l = hd d' l.
Proof. destruct l; [congruence | reflexivity]. Qed.

(** Selecting with a weaker test never selects an earlier position. *)
Lemma last_filter_mono {A : Type} (q q' : A -> bool) (l : list A) (d : A) :
  (forall x, q x = true -> q' x = true) -> l <> [] ->
  exists i j : nat, (i <= j)%nat /\
    l !! i = Some (List.last (List.filter q l) (hd d l)) /\
    l !! j = Some (List.last (List.filter q' l) (hd d l)).
Proof.
  intros Hq. induction l as [|x l IH] using rev_ind; [congruence|]. intros _.
  destruct l as [|a l].
  { exists 0%nat, 0%nat. simpl. destruct (q x), (q' x); simpl; auto. }
  assert (Hne : a :: l <> []) by discriminate.
  rewrite (hd_default_irrelevant d x) by (simpl; discriminate).
  rewrite !(last_filter_snoc _ (a :: l) x Hne).
  rewrite <- !(hd_default_irrelevant d x (a :: l) Hne).
  destruct (IH Hne) as (i & j & Hij & Hi & Hj).
  assert (Hilt : (i < length (a :: l))%nat) by (eapply lookup_lt_Some; exact Hi).
  assert (Hjlt : (j < length (a :: l))%nat) by (eapply lookup_lt_Some; exact Hj).
  assert (Hend : ((a :: l) ++ [x]) !! length (a :: l) = Some x).
  { rewrite lookup_app_r by lia. now rewrite Nat.sub_diag. }
  destruct (q' x) eqn:Eq'.
  - destruct (q x) eqn:Eq.
    + exists (length (a :: l)), (length (a :: l)). auto.
    + exists i, (length (a :: l)). split; [lia|]. split; [|exact Hend].
      now rewrite lookup_app_l.
  - destruct (q x) eqn:Eq; [apply Hq in Eq; congruence|].
    exists i, j. split; [exact Hij|].
    rewrite !lookup_app_l by assumption. auto.
Qed.

(** X15. On the fallback path, scrolling down never moves the selection
    backwards: for the same document, the section selected at a larger
    scroll position stands at the same place or later in the list than the
    one selected at a smaller position. *)
Theorem scrolling_down_moves_forward (ids : list jsstring) (doc : document)
    (y y' : Q) :
  ids <> [] -> (y <= y')%Q ->
  exists i j : nat, (i <= j)%nat /\
    ids !! i = Some (scrollCurrent ids doc y) /\
    ids !! j = Some (scrollCurrent ids doc y').
Proof.
  intros Hne Hy. unfold scrollCurrent. rewrite !scroll_loop_last.
  apply last_filter_mono; [|exact Hne].
  intros x. now apply qualifies_mono.
Qed.

Lemma scrolling_down_moves_forward_witness :
  exists i j : nat, (i <= j)%nat /\
    pageIds !! i = Some (scrollCurrent pageIds pageDoc (100 # 1)) /\
    pageIds !! j = Some (scrollCurrent pageIds pageDoc (1700 # 1)).
Proof.
  apply (scrolling_down_moves_forward pageIds pageDoc (100 # 1) (1700 # 1)).
  - discriminate.
  - vm_compute. discriminate.
Defined.

End ScrollSpyPaths.

(** ** More on the reveal controller *)

Section RevealMore.

(** The targets of the intersecting entries of a delivery. *)
Let seen (entries : list (IntersectionObserverEntry element)) : gset element :=
  list_to_set (map target (List.filter isIntersecting entries)).

Lemma callback_exact (entries : list (IntersectionObserverEntry element)) :
  forall s obs, observer s = Some obs ->
    revealed (fold_left revealEntry entries s) = revealed s ∪ seen entries /\
    observer (fold_left revealEntry entries s) = Some (obs ∖ seen entries).
Proof.
  unfold seen. induction entries as [|e l IH]; intros s obs Hs; simpl.
  - split; [set_solver | rewrite Hs; f_equal; set_solver].
  - unfold revealEntry at 2 4. destruct (isIntersecting e) eqn:Hi; simpl.
    + destruct (IH (mkReveal (revealed s ∪ {[target e]})
                      ((fun o => o ∖ {[target e]}) <$> observer s))
                   (obs ∖ {[target e]})) as [Hr Ho].
      { simpl. now rewrite Hs. }
      rewrite Hr, Ho. simpl. split; [set_solver | f_equal; set_solver].
    + now apply IH.
Qed.

(** X16. A delivery to the reveal observer reveals the targets of its
    intersecting entries and nothing else, and takes exactly those targets
    out of observation; entries that are not intersecting change nothing.
    Without an observer a delivery changes nothing. *)
Theorem callback_reveals_exactly (s : reveal)
    (entries : list (IntersectionObserverEntry element)) :
  (forall obs, observer s = Some obs ->
     revealed (reveal_step s (Intersect entries))
     = revealed s ∪ list_to_set (map target (List.filter isIntersecting entries)) /\
     observer (reveal_step s (Intersect entries))
     = Some (obs ∖ list_to_set (map target (List.filter isIntersecting entries)))) /\
  (observer s = None -> reveal_step s (Intersect entries) = s).
Proof.
  split.
  - intros obs Hs. simpl. rewrite Hs. now apply callback_exact.
  - intros Hs. simpl. now rewrite Hs.
Qed.

Lemma callback_reveals_exactly_witness :
  revealed (reveal_step revealObserving (Intersect firstSeen))
  = revealed revealObserving
    ∪ list_to_set (map target (List.filter isIntersecting firstSeen)).
Proof.
  destruct (callback_reveals_exactly revealObserving firstSeen) as [H _].
  exact (proj1 (H (list_to_set [1; 2]) eq_refl)).
Defined.

End RevealMore.

(** ** The reduced-motion preference *)

Section Motion.

Lemma changes_while_listening (changes : list bool) :
  forall s api, listening s = Some api ->
    motion_run s (map MediaChange changes)
    = mkMotion (List.last changes (reduced s)) (Some api).
Proof.
  unfold motion_run.
  induction changes as [|c l IH]; intros [r li] api Hs; simpl in *.
  - now rewrite Hs.
  - rewrite Hs. rewrite (IH (mkMotion c (Some api)) api eq_refl). simpl.
    f_equal. destruct l; [reflexivity|]. now rewrite !last_cons_default.
Qed.

Lemma changes_while_deaf (changes : list bool) (s : motion) :
  listening s = None -> motion_run s (map MediaChange changes) = s.
Proof.
  intros Hs. unfold motion_run.
  induction changes as [|c l IH]; simpl; [reflexivity|].
  rewrite Hs. exact IH.
Qed.

Lemma motion_after_mount (q : MediaQueryList) (changes : list bool) :
  reduced (motion_run motion_init (MotionMount (Some q) :: map MediaChange changes))
  = matches (media_after q changes) /\
  reduced (motion_run motion_init (MotionMount None :: map MediaChange changes))
  = false.
Proof.
  split.
  - change (motion_run motion_init (MotionMount (Some q) :: map MediaChange changes))
      with (motion_run (motionEffect (Some q) motion_init) (map MediaChange changes)).
    simpl. erewrite changes_while_listening by reflexivity. reflexivity.
  - change (motion_run motion_init (MotionMount None :: map MediaChange changes))
      with (motion_run motion_init (map MediaChange changes)).
    now rewrite changes_while_deaf.
Qed.

(** X17. After the hook has mounted on a browser with [matchMedia], its
    state equals the current value of the preference after every change
    notification. Without [matchMedia], and after unmounting, the state does
    not follow the preference: it stays [false], respectively what it was. *)
Theorem reduced_tracks_preference (q : MediaQueryList) (changes : list bool)
    (s : motion) :
  reduced (motion_run motion_init (MotionMount (Some q) :: map MediaChange changes))
  = matches (media_after q changes) /\
  reduced (motion_run motion_init (MotionMount None :: map MediaChange changes))
  = false /\
  reduced (motion_run s (MotionUnmount :: map MediaChange changes)) = reduced s.
Proof.
  destruct (motion_after_mount q changes) as [H1 H2].
  split; [exact H1|]. split; [exact H2|].
  change (motion_run s (MotionUnmount :: map MediaChange changes))
    with (motion_run (mkMotion (reduced s) None) (map MediaChange changes)).
  now rewrite changes_while_deaf.
Qed.

(** X18. A navigation click always closes the mobile menu. It scrolls only
    when the target section exists, and then without animation exactly when
    the preference is reduced at that moment, which is also what the mounted
    hook reports: the two readings of the preference agree. *)
Theorem navigation_respects_preference (doc : document)
    (mq : option MediaQueryList) (changes : list bool) (sectionId : jsstring) :
  onNavClick doc ((fun q => media_after q changes) <$> mq) sectionId
  = (false,
     match getElementById doc sectionId with
     | None => None
     | Some _ =>
         Some (if reduced (motion_run motion_init
                             (MotionMount mq :: map MediaChange changes))
               then BehaviorAuto else BehaviorSmooth)
     end).
Proof.
  unfold onNavClick, scrollToSection. f_equal.
  destruct (getElementById doc sectionId); [|reflexivity]. f_equal.
  destruct mq as [q|]; simpl option_map.
  - now rewrite (proj1 (motion_after_mount q changes)).
  - now rewrite (proj2 (motion_after_mount (mkMedia false false false) changes)).
Qed.

End Motion.

(** ** The preference and the reveal controller together *)

Section AppMotion.

Context (hasIO : bool) (elements : list element).

(** What holds between renders: the reveal effect last ran for the current
    value of the state, and under reduced motion everything is revealed and
    nothing is observed. *)
Let app_inv (s : app) : Prop :=
  app_rendered s = reduced (app_motion s) /\
  (reduced (app_motion s) = true ->
   observer (app_reveal s) = None /\
   forall x, In x elements -> x ∈ revealed (app_reveal s)).

Lemma revealEffect_reduced (r : reveal) :
  observer (revealEffect true hasIO elements r) = None /\
  forall x, In x elements -> x ∈ revealed (revealEffect true hasIO elements r).
Proof.
  unfold revealEffect, revealAll. destruct elements as [|e els].
  - split; [reflexivity | intros x []].
  - cbn [observer revealed]. split; [reflexivity|]. intros x Hx.
    apply elem_of_union_r, elem_of_list_to_set, list_elem_of_In. exact Hx.
Qed.

Lemma app_commit_inv (m : motion) (rendered : bool) (r : reveal) :
  (rendered = true -> reduced m = true ->
   observer r = None /\ forall x, In x elements -> x ∈ revealed r) ->
  app_inv (app_commit hasIO elements (mkApp m rendered r)).
Proof.
  intros Hprev. unfold app_commit, app_inv. simpl.
  destruct (Bool.eqb (reduced m) rendered) eqn:E; simpl.
  - apply Bool.eqb_prop in E. split; [congruence|].
    intros Hr. apply Hprev; congruence.
  - split; [reflexivity|]. intros ->. apply revealEffect_reduced.
Qed.

Lemma app_mount_inv (mq : option MediaQueryList) :
  app_inv (app_mount mq hasIO elements).
Proof. unfold app_mount. apply app_commit_inv. discriminate. Qed.

Lemma app_step_inv (s : app) (ev : app_event) :
  app_inv s -> app_inv (app_step hasIO elements s ev).
Proof.
  intros [Hr Hall]. destruct ev as [m | entries]; simpl.
  - apply app_commit_inv. intros Hren _. apply Hall. congruence.
  - unfold app_inv. simpl. split; [exact Hr|].
    intros Hred. destruct (Hall Hred) as [Hobs Hx]. rewrite Hobs. auto.
Qed.

Lemma app_run_inv (evs : list app_event) :
  forall s, app_inv s -> app_inv (app_run hasIO elements s evs).
Proof.
  unfold app_run. induction evs as [|ev evs IH]; intros s Hs; [exact Hs|].
  simpl. apply IH. now apply app_step_inv.
Qed.

(** X19. In [App], after mounting and after any sequence of preference
    changes and observer deliveries, the reveal effect has run for the
    current value of the preference; and whenever the preference is
    "reduced", every reveal-marked element of the page is revealed and no
    observer is installed. This holds in particular right after mounting on
    a browser whose preference is already "reduced". *)
Theorem reduced_motion_reveals_page (mq : option MediaQueryList)
    (evs : list app_event) :
  app_rendered (app_run hasIO elements (app_mount mq hasIO elements) evs)
  = reduced (app_motion (app_run hasIO elements (app_mount mq hasIO elements) evs)) /\
  (reduced (app_motion (app_run hasIO elements (app_mount mq hasIO elements) evs))
   = true ->
   observer (app_reveal (app_run hasIO elements (app_mount mq hasIO elements) evs))
   = None /\
   forall x, In x elements ->
     x ∈ revealed (app_reveal (app_run hasIO elements (app_mount mq hasIO elements) evs))).
Proof. apply (app_run_inv evs), app_mount_inv. Qed.

End AppMotion.

Section AppMotionWitness.

Lemma reduced_motion_reveals_page_witness :
  2 ∈ revealed (app_reveal
                  (app_run true [1; 2]
                     (app_mount (Some (mkMedia false true true)) true [1; 2])
                     [AppIntersect firstSeen; AppMediaChange true])).
Proof.
  refine (proj2 (proj2 (reduced_motion_reveals_page true [1; 2]
                          (Some (mkMedia false true true))
                          [AppIntersect firstSeen; AppMediaChange true]) _) 2 _).
  - reflexivity.
  - simpl. auto.
Defined.

End AppMotionWitness.

(** ** Mobile menu and scroll lock *)

Section Menu.

Context (o : jsstring).

(** Closed with the page's own overflow, or open with the page locked and
    the page's own overflow kept for the cleanup. *)
Let menu_inv (s : menu) : Prop :=
  s = mkMenu false o None \/ s = mkMenu true (lit "hidden") (Some o).

Lemma menu_step_inv (s : menu) (ev : menu_event) :
  menu_inv s -> menu_inv (menu_step s ev).
Proof.
  unfold menu_inv. intros [-> | ->]; destruct ev as [ | | i | w];
    unfold menu_step; simpl; try destruct (860 <=? w)%Z; simpl; auto.
Qed.

Lemma menu_run_inv (evs : list menu_event) :
  forall s, menu_inv s -> menu_inv (menu_run s evs).
Proof.
  unfold menu_run. induction evs as [|ev evs IH]; intros s Hs; [exact Hs|].
  simpl. apply IH. now apply menu_step_inv.
Qed.

(** X20. The scroll lock is a round trip. Starting from the closed menu
    over a page whose body overflow is [o], after any sequence of toggles,
    closes, navigation clicks and resizes: if the menu is closed the body
    overflow is [o] again and no cleanup is pending; if it is open the body
    overflow is "hidden" and the pending cleanup holds [o]. *)
Theorem scroll_lock_round_trip (evs : list menu_event) :
  (mobileOpen (menu_run (menu_init o) evs) = false /\
   bodyOverflow (menu_run (menu_init o) evs) = o /\
   lockCleanup (menu_run (menu_init o) evs) = None) \/
  (mobileOpen (menu_run (menu_init o) evs) = true /\
   bodyOverflow (menu_run (menu_init o) evs) = lit "hidden" /\
   lockCleanup (menu_run (menu_init o) evs) = Some o).
Proof.
  destruct (menu_run_inv evs (menu_init o)) as [-> | ->];
    [now left | left | right]; simpl; auto.
Qed.

(** X21. In any state the menu can be in: a navigation click, the close
    button, the backdrop, and a resize to a width of 860 or more leave the
    menu closed and the page scrollable as before; a resize to a width below
    860 changes nothing; and two toggles in a row change nothing. *)
Theorem menu_closes (evs : list menu_event) (sectionId : jsstring) (w : Z) :
  menu_step (menu_run (menu_init o) evs) CloseClick = menu_init o /\
  menu_step (menu_run (menu_init o) evs) (NavClick sectionId) = menu_init o /\
  ((860 <= w)%Z -> menu_step (menu_run (menu_init o) evs) (ResizeTo w) = menu_init o) /\
  ((w < 860)%Z ->
   menu_step (menu_run (menu_init o) evs) (ResizeTo w) = menu_run (menu_init o) evs) /\
  menu_step (menu_step (menu_run (menu_init o) evs) ToggleClick) ToggleClick
  = menu_run (menu_init o) evs.
Proof.
  destruct (menu_run_inv evs (menu_init o)) as [-> | ->]; [now left | |];
    unfold menu_step, menu_init; simpl; repeat split;
    intros Hw; destruct (Z.leb_spec 860 w); simpl; try reflexivity; lia.
Qed.

End Menu.

Section MenuWitness.

Lemma menu_closes_witness :
  menu_step (menu_run (menu_init (lit "auto")) [ToggleClick]) (ResizeTo 1024)
  = menu_init (lit "auto").
Proof.
  refine (proj1 (proj2 (proj2 (menu_closes (lit "auto") [ToggleClick] [] 1024))) _).
  lia.
Defined.

End MenuWitness.

(** ** When errors become visible *)

Section ErrorVisibility.

Lemma untouched_step (s : session) (ev : form_event) (k : field) :
  ev <> Blur k -> ev <> Submit ->
  get_field k (contactTouched s) = false ->
  get_field k (contactTouched (form_step s ev)) = false.
Proof.
  intros Hb Hs Ht. destruct ev as [k' v | k' | | ]; simpl.
  - exact Ht.
  - rewrite get_set_field. destruct (decide (k = k')) as [->|]; [congruence | exact Ht].
  - congruence.
  - destruct k; reflexivity.
Qed.

Lemma untouched_run (evs : list form_event) (k : field) :
  Forall (fun ev => ev <> Blur k /\ ev <> Submit) evs ->
  forall s, get_field k (contactTouched s) = false ->
    get_field k (contactTouched (form_run s evs)) = false.
Proof.
  unfold form_run. induction 1 as [|ev evs [Hb Hs] _ IH]; intros s Ht; [exact Ht|].
  simpl. apply IH. now apply untouched_step.
Qed.

(** X22. An input shows no error, and is not marked invalid, as long as the
    visitor has neither left that input nor tried to submit: typing in any
    field, leaving other fields and resetting never make its error
    visible, whatever its value. *)
Theorem no_error_before_interaction (evs : list form_event) (k : field) :
  Forall (fun ev => ev <> Blur k /\ ev <> Submit) evs ->
  shownError (form_run initialSession evs) k = None /\
  ariaInvalid (form_run initialSession evs) k = false.
Proof.
  intros H. unfold shownError, ariaInvalid.
  rewrite (untouched_run evs k H initialSession) by (destruct k; reflexivity).
  split; reflexivity.
Qed.

Lemma no_error_before_interaction_witness :
  shownError
    (form_run initialSession [Change FEmail (lit "bad"); Blur FName; Reset;
                              Change FEmail (lit "still bad")])
    FEmail
  = None.
Proof.
  refine (proj1 (no_error_before_interaction
    [Change FEmail (lit "bad"); Blur FName; Reset; Change FEmail (lit "still bad")]
    FEmail _)).
  repeat (constructor; [split; discriminate|]). constructor.
Defined.

End ErrorVisibility.
